(** * geventirc: the frame codec, the CTCP codec and the client's nick and
      shutdown logic, embedded from [lib/geventirc/message.py] and
      [girc/client.py]. *)

From Stdlib Require Import Ascii String Lia.
From stdpp Require Import base decidable option list gmap.

Local Open Scope char_scope.
Local Open Scope list_scope.

(** ** Python byte strings

    A Python 2 [str] is a sequence of bytes; it is modelled as a list of
    8-bit characters. *)

Definition bytes := list ascii.

Definition b (s : string) : bytes := list_ascii_of_string s.

(** Exceptions, with the part of the class hierarchy the code relies on:
    [except Exception] does not catch a [BaseException] such as
    [GreenletExit]. *)
Inductive exn :=
| ProtocolViolationError (buf : bytes)
| AssertionError (msg : string)
| AttributeError (msg : string)
| OtherException (name : string)
| OtherBaseException (name : string).

Definition is_Exception (e : exn) : bool :=
  match e with
  | OtherBaseException _ => false
  | _ => true
  end.

Inductive result (A : Type) :=
| Ok (a : A)
| Raise (e : exn).
Arguments Ok {A} a.
Arguments Raise {A} e.

Module PyStr.

(** [s.startswith(p)] *)
Fixpoint startswith (s p : bytes) {struct p} : bool :=
  match p, s with
  | [], _ => true
  | _ :: _, [] => false
  | x :: p', y :: s' => bool_decide (x = y) && startswith s' p'
  end.

(** [s.find(sep)], with [None] for Python's [-1]. *)
Fixpoint find (sep s : bytes) : option nat :=
  match s with
  | [] => if startswith [] sep then Some 0 else None
  | _ :: s' => if startswith s sep then Some 0 else S <$> find sep s'
  end.

(** [s.split(sep, 1)]: one piece, or the two pieces around the first
    occurrence of [sep]. *)
Definition split1 (sep s : bytes) : list bytes :=
  match find sep s with
  | Some i => [take i s; drop (i + length sep) s]
  | None => [s]
  end.

(** [a, b = l]: unpacking anything but a two-element list raises
    [ValueError], modelled by [None]. *)
Definition unpack2 {A} (l : list A) : option (A * A) :=
  match l with
  | [x; y] => Some (x, y)
  | _ => None
  end.

(** [s.split(c)] for a one-character separator. *)
Fixpoint split (c : ascii) (s : bytes) : list bytes :=
  match s with
  | [] => [[]]
  | a :: s' =>
      if bool_decide (a = c) then [] :: split c s'
      else match split c s' with
           | p :: ps => (a :: p) :: ps
           | [] => [[a]]
           end
  end.

(** [sep.join(l)] *)
Fixpoint join (sep : bytes) (l : list bytes) : bytes :=
  match l with
  | [] => []
  | [x] => x
  | x :: l' => x ++ sep ++ join sep l'
  end.

(** [s[i:j]] for non-negative indices. *)
Definition slice (i j : nat) (s : bytes) : bytes := take (j - i) (drop i s).

(** [c in s] for a one-character [c]. *)
Definition contains (c : ascii) (s : bytes) : bool :=
  existsb (fun x => bool_decide (x = c)) s.

(** Truth value of a string: non-empty. *)
Definition truthy (s : bytes) : bool :=
  match s with [] => false | _ => true end.

(** [enumerate(s)] *)
Definition enumerate (s : bytes) : list (nat * ascii) :=
  zip (seq 0 (length s)) s.

(** [s.split(sep)] for the two-byte separator [d c]: the pieces between
    the occurrences of the separator, found from the left and not
    overlapping. *)
Fixpoint split_pair (d c : ascii) (s : bytes) : list bytes :=
  match s with
  | [] => [[]]
  | a :: s' =>
      match s' with
      | a' :: s'' =>
          if bool_decide (a = d) && bool_decide (a' = c)
          then [] :: split_pair d c s''
          else match split_pair d c s' with
               | p :: ps => (a :: p) :: ps
               | [] => [[a]]
               end
      | [] => [[a]]
      end
  end.

(** [c.upper()] for one byte, and [s.upper()]: the ASCII lower-case
    letters are raised. *)
Definition upper_char (c : ascii) : ascii :=
  let n := nat_of_ascii c in
  if bool_decide (97 <= n <= 122) then ascii_of_nat (n - 32) else c.

Definition upper (s : bytes) : bytes := map upper_char s.

End PyStr.

(** ** lib/geventirc/message.py *)

Module Message.
Import PyStr.

Definition DELIM : ascii := " ".  (* chr(040), octal *)
Definition CR : ascii := "013".
Definition NL : ascii := "010".
Definition NUL : ascii := "000".
Definition INVALID_CHARS : list ascii := [CR; NL; NUL].
Definition CRLF : bytes := [CR; NL].

Definition is_valid_param (param : bytes) : bool :=
  negb (existsb (fun c => contains c param) INVALID_CHARS).

Definition irc_split (data : bytes) : result (bytes * bytes * list bytes) :=
  let prefix : bytes := [] in
  let buf := data in
  let '(prefix, buf) :=
    if startswith buf [":"] then
      match unpack2 (split1 [DELIM] (drop 1 buf)) with
      | Some (p, rest) => (p, rest)
      | None => (prefix, buf)
      end
    else (prefix, buf) in
  match unpack2 (split1 [DELIM] buf) with
  | None => Raise (ProtocolViolationError buf)
  | Some (command, buf) =>
      let '(buf, trailing) :=
        match unpack2 (split1 [DELIM; ":"] buf) with
        | Some (rest, t) => (rest, Some t)
        | None => (buf, None)
        end in
      let params := split DELIM buf in
      let params :=
        match trailing with
        | Some t => params ++ [t]
        | None => params
        end in
      Ok (prefix, command, params)
  end.

(** The [params] argument of a message: [None], one string, or a list. *)
Inductive params_t :=
| ParamsNone
| ParamsStr (s : bytes)
| ParamsList (l : list bytes).

Definition irc_unsplit (prefix : option bytes) (command : bytes)
    (params : params_t) : result bytes :=
  let buf : bytes := [] in
  let buf :=
    match prefix with
    | Some p => buf ++ (p ++ [DELIM])
    | None => buf
    end in
  let buf := buf ++ (command ++ [DELIM]) in
  match params with
  | ParamsNone => Ok buf
  | ParamsStr s =>
      if startswith s [":"]
      then Raise (AssertionError "params must not start with :")
      else Ok (buf ++ (":" :: s))
  | ParamsList l =>
      match last l with
      | None => Ok buf
      | Some trailing =>
          let rparams := removelast l in
          let buf :=
            match rparams with
            | [] => buf
            | _ => buf ++ (join [DELIM] rparams ++ [DELIM])
            end in
          let buf := if truthy trailing then buf ++ (":" :: trailing) else buf in
          Ok buf
      end
  end.

Record Message := mkMessage {
  prefix : option bytes;
  command : bytes;
  params : params_t
}.

Definition decode (data : bytes) : result Message :=
  match irc_split data with
  | Ok (p, c, ps) => Ok (mkMessage (Some p) c (ParamsList ps))
  | Raise e => Raise e
  end.

Definition encode (m : Message) : result bytes :=
  match irc_unsplit (prefix m) (command m) (params m) with
  | Ok line => Ok (line ++ CRLF)
  | Raise e => Raise e
  end.

(** *** The two quoting layers *)

Definition X_DELIM : ascii := "001".
Definition X_QUOTE : ascii := "134".  (* '\x86' *)
Definition M_QUOTE : ascii := "016".  (* '\x10' *)

(** A [dict] from strings to strings, in insertion order. *)
Definition table := list (bytes * bytes).

(** [table[k]] when [k in table]. *)
Fixpoint table_get (k : bytes) (t : table) : option bytes :=
  match t with
  | [] => None
  | (k', v) :: t' => if bool_decide (k = k') then Some v else table_get k t'
  end.

Definition _low_level_quote_table : table :=
  [ ([NUL], [M_QUOTE; "0"]);
    ([NL], [M_QUOTE; "n"]);
    ([CR], [M_QUOTE; "r"]);
    ([M_QUOTE], [M_QUOTE; M_QUOTE]) ].

Definition _ctcp_quote_table : table :=
  [ ([X_DELIM], [X_QUOTE; "a"]);
    ([X_QUOTE], [X_QUOTE; X_QUOTE]) ].

(** [{v: k for k, v in t.items()}] *)
Definition invert (t : table) : table :=
  map (fun kv => (snd kv, fst kv)) t.

Definition _low_level_dequote_table : table := invert _low_level_quote_table.
Definition _ctcp_dequote_table : table := invert _ctcp_quote_table.

(** One iteration of the loop of [_quote]; the state is [(cursor, buf)]. *)
Definition _quote_step (string : bytes) (t : table)
    (st : nat * bytes) (pc : nat * ascii) : nat * bytes :=
  let '(cursor, buf) := st in
  let '(pos, char) := pc in
  if bool_decide (pos = 0) then st
  else match table_get [char] t with
       | Some q => (pos + 1, buf ++ (slice cursor pos string ++ q))
       | None => st
       end.

Definition _quote (string : bytes) (t : table) : bytes :=
  let '(cursor, buf) :=
    fold_left (_quote_step string t) (enumerate string) (0, []) in
  buf ++ drop cursor string.

(** One iteration of the loop of [_dequote]; the state is
    [(cursor, buf, last_char)]. *)
Definition _dequote_step (string : bytes) (t : table)
    (st : nat * bytes * bytes) (pc : nat * ascii) : nat * bytes * bytes :=
  let '(cursor, buf, last_char) := st in
  let '(pos, char) := pc in
  if bool_decide (pos = 0) then (cursor, buf, [char])
  else match table_get (last_char ++ [char]) t with
       | Some v => (pos + 1, buf ++ (slice cursor pos string ++ v), [char])
       | None => (cursor, buf, [char])
       end.

Definition _dequote (string : bytes) (t : table) : bytes :=
  let '(cursor, buf, _) :=
    fold_left (_dequote_step string t) (enumerate string) (0, [], []) in
  buf ++ drop cursor string.

Definition low_level_quote (s : bytes) : bytes := _quote s _low_level_quote_table.
Definition low_level_dequote (s : bytes) : bytes := _dequote s _low_level_dequote_table.
Definition ctcp_quote (s : bytes) : bytes := _quote s _ctcp_quote_table.
Definition ctcp_dequote (s : bytes) : bytes := _dequote s _ctcp_dequote_table.

(** *** CTCPMessage *)

(** The [data] of an extended message as [encode] accepts it: [None], a
    string, or a sequence of strings. *)
Inductive ctcp_data :=
| DataNone
| DataStr (s : bytes)
| DataSeq (l : list bytes).

Definition data_truthy (d : ctcp_data) : bool :=
  match d with
  | DataNone => false
  | DataStr s => truthy s
  | DataSeq l => match l with [] => false | _ => true end
  end.

Record CTCPMessage := mkCTCPMessage {
  ctcp_prefix : option bytes;
  ctcp_command : bytes;
  ctcp_plain : list bytes;                    (* self.params *)
  ctcp_params : list (bytes * ctcp_data)
}.

(** The body of the [while messages:] loop of [CTCPMessage.decode]:
    [messages] is reversed and popped from the end, so the segments are
    visited front to back; the state is
    [(odd, extended_messages, normal_messages)]. *)
Definition ctcp_decode_step
    (st : bool * list (bytes * ctcp_data) * list bytes) (message : bytes)
    : bool * list (bytes * ctcp_data) * list bytes :=
  let '(odd, extended_messages, normal_messages) := st in
  if odd then
    if truthy message then
      let ctcp_decoded := ctcp_dequote message in
      let split_ := split1 [DELIM] ctcp_decoded in
      let tag := hd [] split_ in
      let data :=
        match split_ with
        | _ :: d :: _ => DataStr d
        | _ => DataNone
        end in
      (negb odd, extended_messages ++ [(tag, data)], normal_messages)
    else (negb odd, extended_messages, normal_messages)
  else
    if truthy message then
      (negb odd, extended_messages,
       normal_messages ++ filter (fun t => truthy t = true) (split DELIM message))
    else (negb odd, extended_messages, normal_messages).

Definition ctcp_decode (data : bytes) : result CTCPMessage :=
  match irc_split data with
  | Raise e => Raise e
  | Ok (prefix, command, params) =>
      match params with
      | [] => Ok (mkCTCPMessage (Some prefix) command [] [])
      | _ =>
          let joined := join [DELIM] params in
          let decoded := low_level_dequote joined in
          let messages := split X_DELIM decoded in
          let '(_, extended_messages, normal_messages) :=
            fold_left ctcp_decode_step messages (false, [], []) in
          Ok (mkCTCPMessage (Some prefix) command normal_messages extended_messages)
      end
  end.

(** The body of the [for tag, data in self.ctcp_params] loop of
    [CTCPMessage.encode]. *)
Definition ctcp_encode_step (ctcp_buf : bytes) (td : bytes * ctcp_data) : bytes :=
  let '(tag, data) := td in
  let m :=
    if data_truthy data then
      let data :=
        match data with
        | DataSeq l => join [DELIM] l
        | DataStr s => s
        | DataNone => []
        end in
      tag ++ [DELIM] ++ data
    else tag in
  ctcp_buf ++ ([X_DELIM] ++ ctcp_quote m ++ [X_DELIM]).

Definition ctcp_encode (m : CTCPMessage) : result bytes :=
  let ctcp_buf := fold_left ctcp_encode_step (ctcp_params m) [] in
  match irc_unsplit (ctcp_prefix m) (ctcp_command m)
          (ParamsList (ctcp_plain m ++ [low_level_quote ctcp_buf])) with
  | Ok line => Ok (line ++ CRLF)
  | Raise e => Raise e
  end.

(** *** Prefix parts *)

(** [Message.prefix_parts]. The membership tests [in] need a string:
    with the default prefix [None] they raise [TypeError]. *)
Definition prefix_parts (m : Message)
    : result (option bytes * option bytes * option bytes) :=
  match prefix m with
  | None => Raise (OtherException "TypeError")
  | Some p =>
      if contains "!" p then
        match unpack2 (split1 ["!"] p) with
        | None => Raise (OtherException "ValueError")
        | Some (server_name, userhost) =>
            if contains "@" userhost then
              match unpack2 (split1 ["@"] userhost) with
              | None => Raise (OtherException "ValueError")
              | Some (user, host) => Ok (Some server_name, Some user, Some host)
              end
            else Ok (Some server_name, None, Some userhost)
        end
      else Ok (Some p, None, None)
  end.

Definition result_map {A B} (f : A -> B) (r : result A) : result B :=
  match r with
  | Ok a => Ok (f a)
  | Raise e => Raise e
  end.

Definition sender (m : Message) : result (option bytes) :=
  result_map (fun t => fst (fst t)) (prefix_parts m).

Definition user_agent (m : Message) : result (option bytes) :=
  result_map (fun t => snd (fst t)) (prefix_parts m).

Definition host (m : Message) : result (option bytes) :=
  result_map (fun t => snd t) (prefix_parts m).

(** *** Commands *)

(** [Command.__init__]: the command defaults to the upper-cased name of
    the class, given here as [class_name]. *)
Definition Command (class_name : bytes) (params : params_t)
    (command : option bytes) (prefix : option bytes) : Message :=
  mkMessage prefix
    (match command with
     | None => upper class_name
     | Some c => c
     end)
    params.

Definition User (username hostname servername realname : bytes)
    (prefix : option bytes) : Message :=
  Command (b "User") (ParamsList [username; hostname; servername; realname])
    None prefix.

(** [Quit]: [msg] is [None] or a string. *)
Definition Quit (msg : option bytes) (prefix : option bytes) : Message :=
  let params := match msg with Some m => [m] | None => [] end in
  Command (b "Quit") (ParamsList params) None prefix.

(** The [channels] argument of [Join]: one string, or pairs of a channel
    and a key that is [None] or a string. *)
Inductive join_arg :=
| JoinStr (channels : bytes)
| JoinPairs (channels : list (bytes * option bytes)).

(** The body of the loop of [Join.__init__]; the state is [(chans, keys)]. *)
Definition join_step (st : list bytes * list bytes) (ck : bytes * option bytes)
    : list bytes * list bytes :=
  let '(chans, keys) := st in
  match snd ck with
  | None => (chans ++ ["#" :: fst ck], keys)
  | Some key => (chans ++ ["&" :: fst ck], keys ++ [key])
  end.

Definition params_truthy (params : params_t) : bool :=
  match params with
  | ParamsNone => false
  | ParamsStr s => truthy s
  | ParamsList l => match l with [] => false | _ => true end
  end.

Definition Join (channels : join_arg) (prefix : option bytes) : result Message :=
  let params :=
    match channels with
    | JoinStr s =>
        if startswith s ["#"] then ParamsStr s else ParamsStr ("#" :: s)
    | JoinPairs l =>
        let '(chans, keys) := fold_left join_step l ([], []) in
        ParamsList [join [","] chans; join [","] keys]
    end in
  if negb (params_truthy params)
  then Raise (OtherException "ValueError")
  else Ok (Command (b "Join") params None prefix).

Definition PrivMsg (to msg : bytes) (prefix : option bytes) : Message :=
  Command (b "PrivMsg") (ParamsList [to; msg]) None prefix.

(** [Pong]: [data] is [None] or a string. *)
Definition Pong (data : option bytes) (prefix : option bytes) : Message :=
  let params :=
    match data with
    | Some d => if truthy d then [d] else []
    | None => []
    end in
  Command (b "Pong") (ParamsList params) None prefix.

(** [Me] *)
Definition Me (to : bytes) (action : ctcp_data) (prefix : option bytes)
    : CTCPMessage :=
  mkCTCPMessage prefix (b "PRIVMSG") [to] [(b "ACTION", action)].

End Message.

(** ** girc/client.py *)

Module Client.

(** What a nick slot holds: [None] or a string. *)
Definition pyval := option bytes.

Definition py_truthy (v : pyval) : bool :=
  match v with
  | Some s => PyStr.truthy s
  | None => false
  end.

(** Effects of [stop] on the world outside the client object. *)
Inductive event :=
| GroupKilled
| StopHandlerCalled (fn : nat).

#[global] Instance event_eq_dec : EqDecision event.
Proof. solve_decision. Defined.

(** The fields of [Client] the nick and shutdown logic reads or writes.
    Callables (stop handlers, message handlers, greenlets) are
    represented by their identity. [_nick_lock] is the recursion depth
    at which the running greenlet holds the [RLock]. [log] records the
    calls [stop] makes into code outside this class. *)
Record client := mkClient {
  _nick : pyval;
  _new_nick : pyval;
  _nick_lock : nat;
  stopped : bool;
  _group : list nat;
  stop_handlers : gset nat;
  message_handlers : gset nat;
  _channels : gmap bytes bool;   (* name -> channel.client is this client *)
  _users : gmap bytes bool;      (* name -> user.client is this client *)
  _send_queue : option (list bytes);
  _recv_queue : option (list bytes);
  log : list event
}.

Definition set__nick (v : pyval) (c : client) : client :=
  mkClient v (_new_nick c) (_nick_lock c) (stopped c) (_group c)
    (stop_handlers c) (message_handlers c) (_channels c) (_users c)
    (_send_queue c) (_recv_queue c) (log c).

Definition set__new_nick (v : pyval) (c : client) : client :=
  mkClient (_nick c) v (_nick_lock c) (stopped c) (_group c)
    (stop_handlers c) (message_handlers c) (_channels c) (_users c)
    (_send_queue c) (_recv_queue c) (log c).

Definition set__nick_lock (n : nat) (c : client) : client :=
  mkClient (_nick c) (_new_nick c) n (stopped c) (_group c)
    (stop_handlers c) (message_handlers c) (_channels c) (_users c)
    (_send_queue c) (_recv_queue c) (log c).

Definition set_stopped (v : bool) (c : client) : client :=
  mkClient (_nick c) (_new_nick c) (_nick_lock c) v (_group c)
    (stop_handlers c) (message_handlers c) (_channels c) (_users c)
    (_send_queue c) (_recv_queue c) (log c).

Definition set__send_queue (q : option (list bytes)) (c : client) : client :=
  mkClient (_nick c) (_new_nick c) (_nick_lock c) (stopped c) (_group c)
    (stop_handlers c) (message_handlers c) (_channels c) (_users c)
    q (_recv_queue c) (log c).

Definition add_log (e : event) (c : client) : client :=
  mkClient (_nick c) (_new_nick c) (_nick_lock c) (stopped c) (_group c)
    (stop_handlers c) (message_handlers c) (_channels c) (_users c)
    (_send_queue c) (_recv_queue c) (log c ++ [e]).

Definition set_log (l : list event) (c : client) : client :=
  mkClient (_nick c) (_new_nick c) (_nick_lock c) (stopped c) (_group c)
    (stop_handlers c) (message_handlers c) (_channels c) (_users c)
    (_send_queue c) (_recv_queue c) l.

(** The nick slots, flags and containers as the first statements of
    [__init__] set them, for the nick [nick] and the stop handlers
    [handlers], before any message is queued or handler registered. *)
Definition init (nick : bytes) (handlers : gset nat) : client :=
  mkClient (Some nick) None 0 false [] handlers ∅ ∅ ∅ (Some []) (Some []) [].

(** *** Statements that may raise and that update the client *)

Definition M (A : Type) : Type := client -> result A * client.

#[global] Instance M_ret : MRet M := fun A a c => (Ok a, c).
#[global] Instance M_bind : MBind M := fun A B k m c =>
  match m c with
  | (Ok a, c1) => k a c1
  | (Raise e, c1) => (Raise e, c1)
  end.

Definition raise {A} (e : exn) : M A := fun c => (Raise e, c).
Definition get : M client := fun c => (Ok c, c).
Definition modify (f : client -> client) : M unit := fun c => (Ok tt, f c).

(** [try: body finally: fin] *)
Definition try_finally {A} (body : M A) (fin : M unit) : M A := fun c =>
  let '(r, c1) := body c in
  match fin c1 with
  | (Ok _, c2) => (r, c2)
  | (Raise e, c2) => (Raise e, c2)
  end.

(** [try: body except Exception: handler] *)
Definition try_except_Exception {A} (body : M A) (handler : exn -> M A) : M A :=
  fun c =>
    match body c with
    | (Ok a, c1) => (Ok a, c1)
    | (Raise e, c1) => if is_Exception e then handler e c1 else (Raise e, c1)
    end.

(** [Client._send], for a message given by its wire form and without a
    callback. After [stop] the queue is [None] and [put] is an attribute
    error. *)
Definition _send (message : bytes) : M unit := fun c =>
  match _send_queue c with
  | Some q => (Ok tt, set__send_queue (Some (q ++ [message])) c)
  | None => (Raise (AttributeError "'NoneType' object has no attribute 'put'"), c)
  end.

Section Nick.

(** [girc.message] and gevent are not part of the source tree; what
    the nick logic calls in them is a parameter. *)
Variable msg : Type.
(** [message.Nick(self, new_nick)] and [message.Quit(self, text)] *)
Variable message_Nick : pyval -> M msg.
Variable message_Quit : pyval -> M msg.
(** [m.send()] *)
Variable message_send : msg -> M unit.
(** [self.wait_for_messages()]: queues a ping and blocks on a gevent
    event until the pong or a timeout; while it blocks, the receive
    loop runs the handlers, which may write both nick slots. *)
Variable wait_for_messages : M unit.
(** What the other greenlets do to the client while this one blocks
    on [_nick_lock] held by another greenlet. *)
Variable nick_lock_wait : client -> client.
(** The attribute [self.increment_nick]. The class calls it and does not
    define it: on a [Client] as the source has it the lookup fails
    ([None]); a subclass or the user may provide the function. *)
Variable increment_nick : option (pyval -> pyval).

(** [with self._nick_lock: body]. The lock is re-entrant: a greenlet
    that holds it does not block. *)
Definition with_nick_lock {A} (body : M A) : M A := fun c =>
  let c := if bool_decide (_nick_lock c = 0) then nick_lock_wait c else c in
  let c := set__nick_lock (S (_nick_lock c)) c in
  let '(r, c) := body c in
  (r, set__nick_lock (pred (_nick_lock c)) c).

Definition quit (text : pyval) : M unit :=
  q ← message_Quit text; message_send q.

(** The statements of the setter between the assignment of
    [_new_nick] and the promotion. *)
Definition send_and_wait (new_nick : pyval) : M unit :=
  nick_msg ← message_Nick new_nick;
  try_except_Exception
    (message_send nick_msg;; wait_for_messages)
    (fun e =>
       quit (Some (b "Unrecoverable error while changing nick"));;
       raise e).

(** [Client.nick] (setter) *)
Definition nick_setter (new_nick : pyval) : M unit :=
  with_nick_lock
    (try_finally
       (modify (set__new_nick new_nick);;
        send_and_wait new_nick;;
        c ← get;
        modify (set__nick (_new_nick c)))
       (modify (set__new_nick None))).

(** The end of the setter when its wait returns without an exception:
    the promotion and the [finally] clause. This is what a greenlet that
    is inside the setter does to the nick slots before it releases the
    lock. *)
Definition finish_change (c : client) : client :=
  set__new_nick None (set__nick (_new_nick c) c).

(** [Client.nick] (getter) *)
Definition nick_getter : M pyval :=
  with_nick_lock (c ← get; mret (_nick c)).

(** [Client.matches_nick] *)
Definition matches_nick (value : pyval) (c : client) : bool :=
  bool_decide (value = _nick c) || bool_decide (value = _new_nick c).

(** The [nick_in_use] handler; [msg_params] is [msg.params]. [proceed]
    is false where the Python code returns before it takes the lock. *)
Definition nick_in_use (msg_params : list bytes) : M unit :=
  match msg_params with
  | [] => raise (OtherException "IndexError")
  | bad :: _ =>
      let bad_nick : pyval := Some bad in
      c ← get;
      proceed ←
        (if py_truthy (_new_nick c) then
           if bool_decide (bad_nick ≠ _new_nick c) then mret false
           else (modify (set__new_nick (_nick c));; mret true)
         else
           if bool_decide (bad_nick ≠ _nick c) then mret false
           else mret true);
      if proceed : bool then
        with_nick_lock
          (c ← get;
           if bool_decide (bad_nick ≠ _nick c) then mret tt
           else match increment_nick with
                | Some f => nick_setter (f (_nick c))
                | None =>
                    raise (AttributeError
                             "'Client' object has no attribute 'increment_nick'")
                end)
      else mret tt
  end.

(** The [forced_nick_change] handler; [sender] is [msg.sender] and
    [nickname] is [msg.nickname]. *)
Definition forced_nick_change (sender nickname : pyval) : M unit :=
  c ← get;
  if bool_decide (sender = _new_nick c) then modify (set__new_nick nickname)
  else if bool_decide (sender = _nick c) then modify (set__nick nickname)
  else mret tt.

End Nick.

(** *** Shutdown *)

Section Stop.

(** The stop handlers are user code: [stop_handler fn] is the call
    [fn(self)], which is handed the client, may change it, and may
    raise. A change of [stop_handlers] stands for a change of the set
    object in place ([add], [discard]), which is how the docstring of
    [__init__] has callers manipulate the set. *)
Variable stop_handler : nat -> M unit.

(** The call [fn(self)] as [_stop] makes it. [log] belongs to the model
    and not to the object, so the callee does not write it. *)
Definition call_stop_handler (fn : nat) : M unit := fun c =>
  let '(r, c1) := stop_handler fn c in
  (r, set_log (log c ++ [StopHandlerCalled fn]) c1).

(** [for fn in self.stop_handlers: fn(self)]. The loop runs over the set
    itself and not over a copy. The iterator of a set keeps the number of
    entries the set had when the loop started and the position it has
    reached: each step first compares that number with the present one
    and raises [RuntimeError] (set changed size during iteration) when
    they differ, also at the step that would end the loop; otherwise it
    yields the entry at its position in the set as it is now. [pos] is
    the number of entries yielded and [todo] the number left. *)
Fixpoint call_stop_handlers (pos todo : nat) {struct todo} : M unit := fun c =>
  if bool_decide (size (stop_handlers c) = pos + todo) then
    match todo, elements (stop_handlers c) !! pos with
    | S todo', Some fn =>
        (call_stop_handler fn;; call_stop_handlers (S pos) todo') c
    | _, _ => (Ok tt, c)
    end
  else (Raise (OtherException "RuntimeError"), c).

(** Modelled from the spec: [Handler.unregister_all] of girc/handler.py,
    which is not in the source tree. The spec has it as the removal of
    the handler from the registry of its owner. *)
Definition unregister_all (handler : nat) (c : client) : client :=
  mkClient (_nick c) (_new_nick c) (_nick_lock c) (stopped c) (_group c)
    (stop_handlers c) (message_handlers c ∖ {[handler]}) (_channels c)
    (_users c) (_send_queue c) (_recv_queue c) (log c).

(** The post-stop clean-up of [_stop]: the back-references of the
    channels and users are cleared, every message handler of a copy of
    the registry is unregistered, and the queues are dropped. *)
Definition post_stop (c : client) : client :=
  let c :=
    mkClient (_nick c) (_new_nick c) (_nick_lock c) (stopped c) (_group c)
      (stop_handlers c) (message_handlers c) ((fun _ => false) <$> _channels c)
      ((fun _ => false) <$> _users c) (_send_queue c) (_recv_queue c) (log c) in
  let c := foldr unregister_all c (elements (message_handlers c)) in
  mkClient (_nick c) (_new_nick c) (_nick_lock c) (stopped c) (_group c)
    (stop_handlers c) (message_handlers c) (_channels c) (_users c)
    None None (log c).

(** [self._group.kill()]: every greenlet of the group is killed and
    leaves the group. *)
Definition kill_group (c : client) : client :=
  mkClient (_nick c) (_new_nick c) (_nick_lock c) (stopped c) []
    (stop_handlers c) (message_handlers c) (_channels c) (_users c)
    (_send_queue c) (_recv_queue c) (log c ++ [GroupKilled]).

(** The inner function [_stop]. *)
Definition _stop : M unit :=
  modify kill_group;;
  c ← get;
  call_stop_handlers 0 (size (stop_handlers c));;
  modify post_stop.

(** [Client.stop], called in the greenlet [caller].
    [gevent.spawn(_stop).join()] runs [_stop] in a child greenlet, which
    is not in the group, and waits for it; an exception that ends the
    child is reported by gevent and not raised by [join]. When [caller]
    is itself in [_group], where [start] spawns [_send_loop] and
    [_recv_loop], the kill of the group reaches it while it waits in
    [join]: its call ends with [GreenletExit], and the child runs on to
    its end. The client returned is the one the child leaves. *)
Definition stop (caller : nat) : M unit := fun c =>
  if stopped c then (Ok tt, c)
  else
    let killed := bool_decide (caller ∈ _group c) in
    let c := set_stopped true c in
    let '(_, c) := _stop c in
    (if killed then Raise (OtherBaseException "GreenletExit") else Ok tt, c).

End Stop.

(** *** Channels *)

Section Channels.

(** [self.server_properties.CHANTYPES]: girc/server_properties.py is not
    in the source tree; the string of channel prefix characters is a
    parameter. *)
Variable CHANTYPES : bytes.

(** [Client.normalize_channel] *)
Definition normalize_channel (name : bytes) : result bytes :=
  match name with
  | [] => Raise (OtherException "ValueError")
  | c :: _ =>
      if PyStr.contains c CHANTYPES then Ok name
      else match CHANTYPES with
           | [] => Raise (OtherException "IndexError")
           | p :: _ => Ok (p :: name)
           end
  end.

(** Modelled from the spec: the constructor [Channel(self, name)] of
    girc/channel.py, which is not in the source tree. The source says of
    it that it registers itself into [_channels]; the new channel refers
    back to the client. *)
Definition Channel (name : bytes) (c : client) : client :=
  mkClient (_nick c) (_new_nick c) (_nick_lock c) (stopped c) (_group c)
    (stop_handlers c) (message_handlers c) (<[name := true]> (_channels c))
    (_users c) (_send_queue c) (_recv_queue c) (log c).

(** [Client.channel]; the channel object is given by its key in
    [_channels]. *)
Definition channel (name : bytes) : M bytes := fun c =>
  match normalize_channel name with
  | Raise e => (Raise e, c)
  | Ok name =>
      let c := if bool_decide (_channels c !! name = None) then Channel name c else c in
      match _channels c !! name with
      | Some _ => (Ok name, c)
      | None => (Raise (OtherException "KeyError"), c)
      end
  end.

End Channels.

(** *** The receive loop *)

(** What one call of [self._socket.recv(4096)] does: it returns data (empty
    when the peer closed the stream), is interrupted ([socket.error] with
    [errno.EINTR]), or raises something else. *)
Inductive recv_result :=
| RecvData (data : bytes)
| RecvEINTR
| RecvRaise (e : exn).

(** How a run of the [while True] loop stands when the calls of [recv]
    given to it are used up: still blocked in [recv], left by [break], or
    left by an exception; each with the value of [partial]. *)
Inductive loop_end :=
| LoopBlocked (partial : bytes)
| LoopBreak (partial : bytes)
| LoopRaised (e : exn) (partial : bytes).

(** [lines = (partial+data).split('\r\n'); partial = lines.pop()] *)
Definition recv_lines (partial data : bytes) : list bytes * bytes :=
  let lines := PyStr.split_pair Message.CR Message.NL (partial ++ data) in
  (removelast lines, default [] (last lines)).

Section RecvLoop.

(** [self._process]: it decodes with [girc.message] and runs the handlers
    of girc/handler.py, both outside the source tree. *)
Variable _process : bytes -> M unit.
Variable stop_handler : nat -> M unit.
(** The greenlet that runs [_recv_loop]. *)
Variable me : nat.

(** [for line in lines: self._process(line)] *)
Fixpoint process_lines (lines : list bytes) : M unit :=
  match lines with
  | [] => mret tt
  | line :: rest => _process line;; process_lines rest
  end.

(** The [while True] loop of [_recv_loop], over the results of the calls
    of [recv] in order. *)
Fixpoint recv_loop (recvs : list recv_result) (partial : bytes)
    : client -> loop_end * client :=
  match recvs with
  | [] => fun c => (LoopBlocked partial, c)
  | RecvEINTR :: rest => recv_loop rest partial
  | RecvRaise e :: _ => fun c => (LoopRaised e partial, c)
  | RecvData data :: rest =>
      if PyStr.truthy data then
        let '(lines, partial) := recv_lines partial data in
        fun c =>
          match process_lines lines c with
          | (Ok _, c) => recv_loop rest partial c
          | (Raise e, c) => (LoopRaised e partial, c)
          end
      else fun c => (LoopBreak partial, c)
  end.

(** [Client._recv_loop]; [None] while the loop is blocked in [recv]. An
    exception that is not an [Exception] leaves the function without the
    call of [stop]. *)
Definition _recv_loop (recvs : list recv_result) : client -> option (result unit) * client :=
  fun c =>
    match recv_loop recvs [] c with
    | (LoopBlocked _, c) => (None, c)
    | (LoopBreak _, c) => (Some (fst (stop stop_handler me c)), snd (stop stop_handler me c))
    | (LoopRaised e _, c) =>
        if is_Exception e
        then (Some (fst (stop stop_handler me c)), snd (stop stop_handler me c))
        else (Some (Raise e), c)
    end.

End RecvLoop.

End Client.

(** * Properties *)

Import PyStr Message Client.

(** ** Vocabulary of the statements *)

(** [Message("NICK", ["bob"])] *)
(** [Message("NICK", ["bob"])] *)
Definition nick_bob : Message := mkMessage None (b "NICK") (ParamsList [b "bob"]).

(** A command token: no separator inside and no prefix marker in front. *)
Definition command_ok (cmd : bytes) : Prop :=
  (DELIM ∉ cmd) /\ startswith cmd [":"] = false.

(** Non-trailing parameters the decoder splits back: at least one, none
    holding the separator, and none but the first starting with the
    trailing marker. *)
Definition middle_ok (rs : list bytes) : Prop :=
  rs <> []
  /\ Forall (fun r => DELIM ∉ r) rs
  /\ Forall (fun r => startswith r [":"] = false) (tail rs).

(** The line [irc_unsplit] builds for no prefix, [cmd], and the parameter
    list [rs ++ [t]] with [rs] non-empty. *)
Definition frame_line (cmd : bytes) (rs : list bytes) (t : bytes) : bytes :=
  (cmd ++ [DELIM]) ++ (join [DELIM] rs ++ [DELIM])
  ++ (if truthy t then ":" :: t else []).

(** What [irc_unsplit] puts in front of the command. *)
Definition prefix_part (pre : option bytes) : bytes :=
  match pre with
  | Some p => p ++ [DELIM]
  | None => []
  end.

(** The bytes one of the two quoting layers escapes. *)
Definition quoted_bytes : list ascii := [NUL; NL; CR; M_QUOTE; X_DELIM; X_QUOTE].

(** A string none of whose bytes is escaped by a quoting layer. *)
Definition plain (s : bytes) : Prop := Forall (fun c => c ∉ quoted_bytes) s.

(** A plain-text token: non-empty, without the separator, the delimiter
    byte and the transport escape byte. *)
Definition token_ok (p : bytes) : Prop :=
  p <> [] /\ (DELIM ∉ p) /\ (X_DELIM ∉ p) /\ (M_QUOTE ∉ p).

(** The data of a decoded extended message is [None] or a string. *)
Definition to_data (d : option bytes) : ctcp_data :=
  match d with
  | Some s => DataStr s
  | None => DataNone
  end.

(** A decoded [(tag, data)] pair as an element of [ctcp_params]. *)
Definition to_ctcp_param (x : bytes * option bytes) : bytes * ctcp_data :=
  (fst x, to_data (snd x)).

(** An extended message: tag and data without escaped bytes, no separator
    in the tag, data absent or non-empty, and not both tag and data
    missing. *)
Definition extended_ok (x : bytes * option bytes) : Prop :=
  plain (fst x) /\ (DELIM ∉ fst x)
  /\ match snd x with
     | Some d => plain d /\ d <> []
     | None => fst x <> []
     end.

(** The body of an extended message between its two delimiter bytes. *)
Definition ctcp_body (x : bytes * option bytes) : bytes :=
  match snd x with
  | Some d => fst x ++ [DELIM] ++ d
  | None => fst x
  end.

(** The buffer [ctcp_buf] of [CTCPMessage.encode] when quoting changes
    nothing: each body between two delimiter bytes. *)
Definition ctcp_wrap (xs : list (bytes * option bytes)) : bytes :=
  concat (map (fun x => [X_DELIM] ++ ctcp_body x ++ [X_DELIM]) xs).

(** [CTCPMessage("PRIVMSG", ["bob"], [("ACTION", "a\x01b")])] *)
Definition action_with_delimiter : CTCPMessage :=
  mkCTCPMessage None (b "PRIVMSG") [b "bob"]
    [(b "ACTION", DataStr ["a"; X_DELIM; "b"])].

(** A run of the nick logic: messages are their nick, [send] is [_send],
    and the server renames bob to bob_ during the wait. *)
Definition send_nick (m : pyval) : M unit := _send (b "NICK " ++ default [] m).
Definition renamed_during_wait : M unit :=
  forced_nick_change (Some (b "bob")) (Some (b "bob_")).




(** Stop handlers that leave the flag [stopped] and the set of stop
    handlers of the client as they find them. *)
Definition keeps_shutdown_state (handler : nat -> M unit) : Prop :=
  forall fn c,
    stopped (snd (handler fn c)) = stopped c
    /\ stop_handlers (snd (handler fn c)) = stop_handlers c.

(** The client with the greenlets [gs] in its group, as [start] spawns
    them. *)
Definition spawned (gs : list nat) (c : client) : client :=
  mkClient (_nick c) (_new_nick c) (_nick_lock c) (stopped c) gs
    (stop_handlers c) (message_handlers c) (_channels c) (_users c)
    (_send_queue c) (_recv_queue c) (log c).

Definition all_return (fn : nat) : M unit := mret tt.
Definition all_say_bye (fn : nat) : M unit :=
  modify (fun c =>
    set__send_queue ((fun q => q ++ [b "QUIT :bye"]) <$> _send_queue c) c).

(** The prefix a triple of prefix parts stands for: the sender, then '!'
    and the host, with the user and '@' in front of the host when there
    is a user. *)
Definition prefix_of_parts (parts : option bytes * option bytes * option bytes)
    : bytes :=
  let '(server_name, user, host) := parts in
  default [] server_name
  ++ match host with
     | None => []
     | Some h =>
         "!" :: match user with Some u => u ++ ["@"] | None => [] end ++ h
     end.

(** The data of the calls of [recv] that returned data, in order. *)
Definition recv_chunks (recvs : list recv_result) : list bytes :=
  omap (fun r => match r with RecvData d => Some d | _ => None end) recvs.

(** A call of [recv] after which the loop goes on: it returned data that
    is not empty, or it was interrupted. *)
Definition recv_goes_on (r : recv_result) : Prop :=
  match r with
  | RecvData d => d <> []
  | RecvEINTR => True
  | RecvRaise _ => False
  end.

(** A stand-in for [_process] that keeps the lines it is given, in
    order, in [_recv_queue]. *)
Definition record_line (line : bytes) : M unit := fun c =>
  (Ok tt,
   mkClient (_nick c) (_new_nick c) (_nick_lock c) (stopped c) (_group c)
     (stop_handlers c) (message_handlers c) (_channels c) (_users c)
     (_send_queue c) ((fun q => q ++ [line]) <$> _recv_queue c) (log c)).

(** ** Scenarios of the frame codec *)

(** C4, as stated, fails: the encoding of [Message("NICK", ["bob"])] is
    not the line "NICK bob" followed by CR LF. *)
Lemma encode_nick_bob_not_plain :
  encode nick_bob <> Ok (b "NICK bob" ++ CRLF).
Proof. vm_compute. discriminate. Qed.

(** C4, amended: [Message("NICK", ["bob"])] encodes to "NICK :bob"
    followed by CR LF: the single parameter is written as the trailing
    parameter, behind the ':' marker. *)
Lemma encode_nick_bob :
  encode nick_bob = Ok (b "NICK :bob" ++ CRLF).
Proof. reflexivity. Qed.

(** C5: decoding "PING :abc123" gives the command PING and, instead of the
    parameter "abc123", the single parameter ":abc123": the space that
    would introduce the trailing marker was consumed by the command split,
    so [DELIM + ':'] is not found in the tail. *)
Lemma decode_ping_keeps_marker :
  decode (b "PING :abc123")
  = Ok (mkMessage (Some []) (b "PING") (ParamsList [b ":abc123"])).
Proof. reflexivity. Qed.

(** ** The quoting layers at concrete inputs *)

(** C2: at the string a, LF, b the transport layer quotes to a, M_QUOTE,
    n, b and dequotes that to a, M_QUOTE, LF, b: [_dequote] copies
    [string[cursor:pos]], which still holds the escape byte. The tag layer
    does the same at a, X_DELIM, b. A leading escape byte is not quoted
    at all: M_QUOTE, n comes back as M_QUOTE, LF. *)
Lemma dequote_quote_keeps_escape_byte :
  low_level_quote [ "a"; NL; "b" ] = [ "a"; M_QUOTE; "n"; "b" ]
  /\ low_level_dequote (low_level_quote [ "a"; NL; "b" ]) = [ "a"; M_QUOTE; NL; "b" ]
  /\ ctcp_quote [ "a"; X_DELIM; "b" ] = [ "a"; X_QUOTE; "a"; "b" ]
  /\ ctcp_dequote (ctcp_quote [ "a"; X_DELIM; "b" ]) = [ "a"; X_QUOTE; X_DELIM; "b" ]
  /\ low_level_dequote (low_level_quote [ M_QUOTE; "n" ]) = [ M_QUOTE; NL ]
  /\ ctcp_dequote (ctcp_quote [ X_QUOTE; "a" ]) = [ X_QUOTE; X_DELIM ].
Proof. repeat split; reflexivity. Qed.

(** ** Facts about the string primitives *)

Section PyStrFacts.

Implicit Types (s r t : bytes) (c d : ascii) (rs : list bytes).

Lemma find_char_app c s t :
  c ∉ s -> find [c] (s ++ c :: t) = Some (length s).
Proof.
  induction s as [|a s IH]; intros Hs; simpl.
  - rewrite bool_decide_true by done. done.
  - apply not_elem_of_cons in Hs as [Hne Hs].
    rewrite bool_decide_false by done. simpl.
    rewrite IH by done. done.
Qed.

Lemma find_char_none c s : c ∉ s -> find [c] s = None.
Proof.
  induction s as [|a s IH]; intros Hs; simpl; [done|].
  apply not_elem_of_cons in Hs as [Hne Hs].
  rewrite bool_decide_false by done. simpl. rewrite IH by done. done.
Qed.

Lemma split1_char_app c s t :
  c ∉ s -> split1 [c] (s ++ c :: t) = [s; t].
Proof.
  intros Hs. unfold split1. rewrite find_char_app by done.
  rewrite take_app_length. simpl.
  rewrite drop_app_add. done.
Qed.

Lemma split1_char_none c s : c ∉ s -> split1 [c] s = [s].
Proof. intros Hs. unfold split1. rewrite find_char_none by done. done. Qed.

Lemma split_fresh c s : c ∉ s -> split c s = [s].
Proof.
  induction s as [|a s IH]; intros Hs; simpl; [done|].
  apply not_elem_of_cons in Hs as [Hne Hs].
  rewrite bool_decide_false by done. rewrite IH by done. done.
Qed.

Lemma split_app c s t :
  c ∉ s -> split c (s ++ c :: t) = s :: split c t.
Proof.
  induction s as [|a s IH]; intros Hs; simpl.
  - rewrite bool_decide_true by done. done.
  - apply not_elem_of_cons in Hs as [Hne Hs].
    rewrite bool_decide_false by done. rewrite IH by done. done.
Qed.

Lemma join_cons_cons sep r r' rs :
  join sep (r :: r' :: rs) = r ++ sep ++ join sep (r' :: rs).
Proof. done. Qed.

Lemma join_snoc sep rs t :
  rs <> [] -> join sep (rs ++ [t]) = join sep rs ++ sep ++ t.
Proof.
  induction rs as [|r rs IH]; intros Hne; [done|].
  destruct rs as [|r' rs]; [done|].
  change ((r :: r' :: rs) ++ [t]) with (r :: r' :: (rs ++ [t])).
  rewrite join_cons_cons.
  change (r' :: (rs ++ [t])) with ((r' :: rs) ++ [t]).
  rewrite IH by done. rewrite join_cons_cons.
  by rewrite <- !app_assoc.
Qed.

(** Splitting a joined list of separator-free pieces gives the pieces. *)
Lemma split_join c rs :
  rs <> [] -> Forall (fun r => c ∉ r) rs -> split c (join [c] rs) = rs.
Proof.
  induction rs as [|r rs IH]; intros Hne Hall; [done|].
  apply Forall_cons in Hall as [Hr Hall].
  destruct rs as [|r' rs].
  - simpl. by apply split_fresh.
  - rewrite join_cons_cons. cbn [app]. rewrite split_app by done.
    rewrite IH by done. done.
Qed.

Lemma split_join_snoc c rs t :
  rs <> [] -> Forall (fun r => c ∉ r) rs -> c ∉ t ->
  split c (join [c] rs ++ c :: t) = rs ++ [t].
Proof.
  intros Hne Hall Ht.
  replace (join [c] rs ++ c :: t) with (join [c] (rs ++ [t])).
  - apply split_join.
    + by destruct rs.
    + apply Forall_app. split; [done|]. by apply Forall_singleton.
  - by rewrite join_snoc.
Qed.

Lemma find_cons sep a s :
  find sep (a :: s)
  = if startswith (a :: s) sep then Some 0 else S <$> find sep s.
Proof. done. Qed.

Lemma startswith_pair_app d c a s t :
  startswith (a :: s ++ d :: t) [d; c]
  = startswith (a :: s ++ [d]) [d; c].
Proof. by destruct s. Qed.

(** No occurrence of [d c] in [s ++ [d]] nor in [t], and [t] does not
    start with [c]: no occurrence in [s ++ d :: t]. *)
Lemma find_pair_app_none d c s t :
  find [d; c] (s ++ [d]) = None ->
  startswith t [c] = false ->
  find [d; c] t = None ->
  find [d; c] (s ++ d :: t) = None.
Proof.
  intros Hs Ht Hnone. induction s as [|a s IH].
  - cbn [app]. rewrite find_cons.
    change (startswith (d :: t) [d; c])
      with (bool_decide (d = d) && startswith t [c]).
    by rewrite Ht, andb_false_r, Hnone.
  - cbn [app] in *. rewrite find_cons in Hs. rewrite find_cons.
    rewrite (startswith_pair_app d c a s t).
    destruct (startswith (a :: s ++ [d]) [d; c]); [done|].
    apply fmap_None in Hs. by rewrite IH.
Qed.

(** The two-byte separator [d c] occurs first at the end of [s] when it
    does not occur in [s ++ [d]]. *)
Lemma find_pair_app d c s t :
  find [d; c] (s ++ [d]) = None ->
  find [d; c] (s ++ d :: c :: t) = Some (length s).
Proof.
  induction s as [|a s IH].
  - intros _. cbn. rewrite (bool_decide_true (d = d)), (bool_decide_true (c = c)) by done. done.
  - cbn [app]. rewrite !find_cons, (startswith_pair_app d c a s (c :: t)).
    destruct (startswith (a :: s ++ [d]) [d; c]); [done|].
    intros H. apply fmap_None in H. rewrite IH by done. done.
Qed.

Lemma find_pair_skip d c s t :
  d ∉ s -> find [d; c] (s ++ t) = (fun i => length s + i) <$> find [d; c] t.
Proof.
  induction s as [|a s IH]; intros Hs.
  - simpl. by destruct (find [d; c] t).
  - apply not_elem_of_cons in Hs as [Hne Hs].
    cbn [app find startswith]. rewrite bool_decide_false by done. cbn [andb].
    rewrite IH by done. by destruct (find [d; c] t).
Qed.

Lemma split1_pair_app d c s t :
  find [d; c] (s ++ [d]) = None ->
  split1 [d; c] (s ++ d :: c :: t) = [s; t].
Proof.
  intros H. unfold split1. rewrite find_pair_app by done.
  rewrite take_app_length. by rewrite drop_app_add.
Qed.

End PyStrFacts.

(** ** The frame codec on well-formed messages *)

Section FrameFacts.

Implicit Types (cmd r t : bytes) (rs : list bytes).

Lemma irc_unsplit_list pre cmd rs t :
  rs <> [] ->
  irc_unsplit pre cmd (ParamsList (rs ++ [t]))
  = Ok (prefix_part pre ++ frame_line cmd rs t).
Proof.
  intros Hne. unfold irc_unsplit, frame_line, prefix_part.
  rewrite last_snoc, removelast_last.
  destruct rs as [|r rs]; [done|].
  cbn [app]. destruct (truthy t).
  - by rewrite <- !app_assoc.
  - by rewrite app_nil_r, <- !app_assoc.
Qed.

Lemma startswith_join_marker r rs :
  startswith r [":"] = false ->
  startswith (join [DELIM] (r :: rs) ++ [DELIM]) [":"] = false.
Proof.
  intros Hr. destruct r as [|a r].
  - by destruct rs.
  - destruct rs; exact Hr.
Qed.

Lemma find_marker_none rs :
  middle_ok rs -> find [DELIM; ":"] (join [DELIM] rs ++ [DELIM]) = None.
Proof.
  intros (Hne & Hsp & Hcol).
  induction rs as [|r rs IH]; [done|].
  apply Forall_cons in Hsp as [Hr Hsp].
  destruct rs as [|r' rs].
  - cbn [join]. rewrite find_pair_skip by done. done.
  - cbn [tail] in Hcol. apply Forall_cons in Hcol as [Hr' Hcol].
    rewrite join_cons_cons, <- !app_assoc.
    rewrite find_pair_skip by done.
    cbn [app]. rewrite find_cons.
    assert (startswith (DELIM :: join [DELIM] (r' :: rs) ++ [DELIM])
              [DELIM; ":"] = false) as ->.
    { change (startswith (DELIM :: ?x) [DELIM; ":"])
        with (bool_decide (DELIM = DELIM) && startswith x [":"]).
      rewrite startswith_join_marker by done. by rewrite andb_false_r. }
    rewrite IH; [done..| |].
    + done.
    + cbn [tail]. destruct rs; [constructor|].
      cbn [tail] in Hcol. done.
Qed.

Lemma startswith_frame_line cmd rs t :
  command_ok cmd -> startswith (frame_line cmd rs t) [":"] = false.
Proof.
  intros [_ Hc]. unfold frame_line. by destruct cmd.
Qed.

(** [irc_split] undoes [irc_unsplit] on a well-formed command with at
    least two parameters. *)
Lemma irc_split_frame_line cmd rs t :
  command_ok cmd -> middle_ok rs ->
  irc_split (frame_line cmd rs t) = Ok ([], cmd, rs ++ [t]).
Proof.
  intros Hcmd Hrs. unfold irc_split.
  rewrite startswith_frame_line by done.
  destruct Hcmd as [Hsp _]. pose proof (find_marker_none _ Hrs) as Hfind.
  destruct Hrs as (Hne & Hall & _).
  unfold frame_line. rewrite <- (app_assoc cmd). cbn [app].
  rewrite split1_char_app by done. cbn [unpack2].
  destruct t as [|a t]; cbn [truthy].
  - rewrite app_nil_r. unfold split1 at 1. rewrite Hfind. cbn [unpack2].
    by rewrite split_join_snoc by (done || apply not_elem_of_nil).
  - rewrite <- app_assoc. cbn [app].
    rewrite split1_pair_app by done. cbn [unpack2].
    by rewrite split_join.
Qed.

(** The same line followed by CR LF: the terminator stays on the last
    parameter. *)
Lemma irc_split_frame_line_CRLF cmd rs t :
  command_ok cmd -> middle_ok rs ->
  irc_split (frame_line cmd rs t ++ CRLF) = Ok ([], cmd, rs ++ [t ++ CRLF]).
Proof.
  intros Hcmd Hrs. destruct t as [|a t].
  - unfold irc_split.
    assert (startswith (frame_line cmd rs [] ++ CRLF) [":"] = false) as ->.
    { destruct Hcmd as [_ Hc]. unfold frame_line. by destruct cmd. }
    destruct Hcmd as [Hsp _]. pose proof (find_marker_none _ Hrs) as Hfind.
    destruct Hrs as (Hne & Hall & _).
    unfold frame_line. cbn [truthy]. rewrite app_nil_r.
    rewrite <- !app_assoc. cbn [app].
    rewrite split1_char_app by done. cbn [unpack2].
    unfold split1 at 1. rewrite find_pair_app_none by done. cbn [unpack2].
    rewrite split_join_snoc; [done..|].
    unfold CRLF. intros Hin. by repeat apply elem_of_cons in Hin as [?|Hin];
      try apply elem_of_nil in Hin.
  - replace (frame_line cmd rs (a :: t) ++ CRLF)
      with (frame_line cmd rs ((a :: t) ++ CRLF)).
    + by apply irc_split_frame_line.
    + unfold frame_line. cbn [truthy app]. by rewrite <- !app_assoc.
Qed.

End FrameFacts.

(** ** Round trip of the frame codec *)

(** C1: the round trip fails at [Message("NICK", ["bob"])]. The wire
    form is "NICK :bob" CR LF, and neither it nor the line without its
    terminator decodes to the parameter list ["bob"]: the line decodes to
    the parameter ":bob", the decoder missing a trailing parameter that
    is the first parameter. *)
Lemma decode_encode_nick_bob_differs :
  encode nick_bob = Ok (b "NICK :bob" ++ CRLF)
  /\ decode (b "NICK :bob" ++ CRLF) <> Ok nick_bob
  /\ decode (b "NICK :bob")
     = Ok (mkMessage (Some []) (b "NICK") (ParamsList [b ":bob"]))
  /\ ParamsList [b ":bob"] <> params nick_bob.
Proof. repeat split; try reflexivity; vm_compute; discriminate. Qed.

(** X30. For a message without prefix, with a command token free of the
    separator and of a leading ':', and with at least two parameters of
    which the non-trailing ones hold no separator and, but for the first,
    do not start with ':', [encode] gives a line followed by CR LF;
    decoding the line gives the empty prefix, the command and the
    parameters of the message, and decoding the line with its terminator
    gives the same with CR LF kept at the end of the last parameter. *)
Theorem decode_encode_well_formed cmd rs t :
  command_ok cmd -> middle_ok rs ->
  exists line,
    encode (mkMessage None cmd (ParamsList (rs ++ [t]))) = Ok (line ++ CRLF)
    /\ decode line = Ok (mkMessage (Some []) cmd (ParamsList (rs ++ [t])))
    /\ decode (line ++ CRLF)
       = Ok (mkMessage (Some []) cmd (ParamsList (rs ++ [t ++ CRLF]))).
Proof.
  intros Hcmd Hrs. exists (frame_line cmd rs t).
  unfold encode, decode. cbn [prefix command params].
  rewrite irc_unsplit_list by apply Hrs. cbn [prefix_part app].
  rewrite irc_split_frame_line, irc_split_frame_line_CRLF by done.
  done.
Qed.

Lemma decode_encode_well_formed_witness :
  command_ok (b "PRIVMSG") /\ middle_ok [b "#chan"]
  /\ exists line,
       encode (mkMessage None (b "PRIVMSG")
                 (ParamsList ([b "#chan"] ++ [b "hello there"])))
       = Ok (line ++ CRLF)
       /\ decode line
          = Ok (mkMessage (Some []) (b "PRIVMSG")
                  (ParamsList ([b "#chan"] ++ [b "hello there"])))
       /\ decode (line ++ CRLF)
          = Ok (mkMessage (Some []) (b "PRIVMSG")
                  (ParamsList ([b "#chan"] ++ [b "hello there" ++ CRLF]))).
Proof.
  assert (command_ok (b "PRIVMSG")) as Hc by (split; [compute_done | reflexivity]).
  assert (middle_ok [b "#chan"]) as Hm
    by (repeat split; [discriminate | compute_done | constructor]).
  split; [exact Hc|]. split; [exact Hm|].
  exact (decode_encode_well_formed (b "PRIVMSG") [b "#chan"] (b "hello there") Hc Hm).
Defined.

(** With a prefix, [irc_unsplit] builds the line of a message without
    prefix whose command is the prefix and whose first parameter is the
    command. *)
Lemma irc_unsplit_prefix p cmd rs t :
  irc_unsplit (Some p) cmd (ParamsList (rs ++ [t]))
  = Ok (frame_line p (cmd :: rs) t).
Proof.
  unfold irc_unsplit, frame_line.
  rewrite last_snoc, removelast_last.
  destruct rs as [|r rs].
  - cbn [app join]. destruct (truthy t); by rewrite ?app_nil_r, <- !app_assoc.
  - rewrite join_cons_cons. cbn [app].
    destruct (truthy t); by rewrite ?app_nil_r, <- !app_assoc.
Qed.

(** X31. [irc_unsplit] writes a prefix without the ':' that [irc_split]
    looks for. For a message with a prefix free of the separator and of a
    leading ':', a command free of the separator, and a list of
    parameters of which the non-trailing ones hold no separator and do
    not start with ':', decoding the encoded line gives the empty prefix,
    the prefix of the message as command, and the command of the message
    as first parameter, in front of the parameters of the message. *)
Theorem decode_encode_prefix_as_command p cmd rs t :
  command_ok p -> DELIM ∉ cmd ->
  Forall (fun r => (DELIM ∉ r) /\ startswith r [":"] = false) rs ->
  exists line,
    encode (mkMessage (Some p) cmd (ParamsList (rs ++ [t]))) = Ok (line ++ CRLF)
    /\ decode line = Ok (mkMessage (Some []) p (ParamsList (cmd :: rs ++ [t]))).
Proof.
  intros Hp Hcmd Hrs. exists (frame_line p (cmd :: rs) t).
  unfold encode, decode. cbn [prefix command params].
  rewrite irc_unsplit_prefix. split; [done|].
  rewrite irc_split_frame_line; [done|done|].
  split; [done|]. split.
  - constructor; [done|]. eapply Forall_impl; [done|]. by intros r [? _].
  - cbn [tail]. eapply Forall_impl; [done|]. by intros r [_ ?].
Qed.

Lemma decode_encode_prefix_as_command_witness :
  command_ok (b "irc.example.net") /\ (DELIM ∉ b "NOTICE")
  /\ Forall (fun r => (DELIM ∉ r) /\ startswith r [":"] = false) [b "bob"]
  /\ exists line,
       encode (mkMessage (Some (b "irc.example.net")) (b "NOTICE")
                 (ParamsList ([b "bob"] ++ [b "hi there"])))
       = Ok (line ++ CRLF)
       /\ decode line
          = Ok (mkMessage (Some []) (b "irc.example.net")
                  (ParamsList (b "NOTICE" :: [b "bob"] ++ [b "hi there"]))).
Proof.
  assert (command_ok (b "irc.example.net")) as H1 by (split; [compute_done|reflexivity]).
  assert (DELIM ∉ b "NOTICE") as H2 by compute_done.
  assert (Forall (fun r => (DELIM ∉ r) /\ startswith r [":"] = false) [b "bob"]) as H3
    by (repeat constructor; compute_done).
  split; [exact H1|]. split; [exact H2|]. split; [exact H3|].
  exact (decode_encode_prefix_as_command (b "irc.example.net") (b "NOTICE")
           [b "bob"] (b "hi there") H1 H2 H3).
Defined.

(** ** Encoding does not validate *)

(** C6: a first parameter that holds the separator, or CR and LF, is
    encoded without error; with CR and LF inside, the message goes out as
    two lines. [is_valid_param] rejects that parameter, and [encode] does
    not call it. *)
Lemma encode_accepts_invalid_middle :
  DELIM ∈ b "a b"
  /\ encode (mkMessage None (b "PRIVMSG") (ParamsList [b "a b"; b "hi"]))
     = Ok (b "PRIVMSG a b :hi" ++ CRLF)
  /\ is_valid_param ("a" :: CRLF) = false
  /\ encode (mkMessage None (b "PRIVMSG") (ParamsList ["a" :: CRLF; b "hi"]))
     = Ok (b "PRIVMSG a" ++ CRLF ++ b " :hi" ++ CRLF).
Proof. repeat split; try reflexivity. compute_done. Qed.

(** The same holds of every list of at least two parameters: whatever
    bytes they hold, [encode] returns the line in which the non-trailing
    parameters are joined by the separator as they are. *)
Lemma encode_list_never_fails pre cmd r rs t :
  encode (mkMessage pre cmd (ParamsList ((r :: rs) ++ [t])))
  = Ok ((prefix_part pre ++ frame_line cmd (r :: rs) t) ++ CRLF).
Proof.
  unfold encode. cbn [prefix command params].
  by rewrite irc_unsplit_list.
Qed.

(** ** The quoting layers on strings without escaped bytes *)

Section QuoteFacts.

Implicit Types (s k : bytes) (c e : ascii) (t : table).

Lemma _quote_fold_id s t (l : list (nat * ascii)) :
  (forall p c, (p, c) ∈ l -> table_get [c] t = None) ->
  fold_left (_quote_step s t) l (0, []) = (0, []).
Proof.
  induction l as [|[p c] l IH]; intros Hl; [done|].
  cbn [fold_left]. unfold _quote_step at 2.
  rewrite (Hl p c) by apply list_elem_of_here.
  destruct (bool_decide (p = 0)); apply IH; intros; eapply Hl, list_elem_of_further; eassumption.
Qed.

(** [_quote] leaves a string alone when none of its bytes is a key of the
    table. *)
Lemma _quote_id s t :
  (forall c, c ∈ s -> table_get [c] t = None) -> _quote s t = s.
Proof.
  intros Hs. unfold _quote. rewrite _quote_fold_id; [done|].
  intros p c Hin. apply Hs. unfold enumerate in Hin.
  by apply elem_of_zip_r in Hin.
Qed.

Lemma _dequote_fold_id s t e (l : list (nat * ascii)) last_char :
  (forall k, head k <> Some e -> table_get k t = None) ->
  Forall (fun c => c <> e) last_char ->
  (forall p c, (p, c) ∈ l -> c <> e) ->
  exists last_char',
    fold_left (_dequote_step s t) l (0, [], last_char) = (0, [], last_char').
Proof.
  intros Ht. revert last_char.
  induction l as [|[p c] l IH]; intros last_char Hlast Hl; [by eexists|].
  cbn [fold_left]. unfold _dequote_step at 2.
  assert (c <> e) as Hc by (eapply Hl, list_elem_of_here).
  assert (table_get (last_char ++ [c]) t = None) as ->.
  { apply Ht. destruct Hlast as [|x last_char Hx _]; cbn; congruence. }
  assert (forall p' c', (p', c') ∈ l -> c' <> e) as Hl'
    by (intros; eapply Hl, list_elem_of_further; eassumption).
  destruct (bool_decide (p = 0)); apply IH; try done; by apply Forall_singleton.
Qed.

(** [_dequote] leaves a string alone when it does not hold the escape
    byte every key of the table starts with. *)
Lemma _dequote_id s t e :
  (forall k, head k <> Some e -> table_get k t = None) ->
  e ∉ s -> _dequote s t = s.
Proof.
  intros Ht Hs. unfold _dequote.
  destruct (_dequote_fold_id s t e (enumerate s) [] Ht) as [l' ->]; [constructor| |done].
  intros p c Hin ->. unfold enumerate in Hin.
  by apply elem_of_zip_r in Hin.
Qed.

Lemma low_level_dequote_table_head k :
  head k <> Some M_QUOTE -> table_get k _low_level_dequote_table = None.
Proof.
  intros Hk. cbn. repeat case_bool_decide; subst; done.
Qed.

Lemma ctcp_dequote_table_head k :
  head k <> Some X_QUOTE -> table_get k _ctcp_dequote_table = None.
Proof.
  intros Hk. cbn. repeat case_bool_decide; subst; done.
Qed.

End QuoteFacts.

(** ** The quoting layers on strings with escaped bytes *)

Section QuoteLengths.

Context (s : bytes) (t : table).

Lemma length_slice i j :
  i <= j -> j <= length s -> length (slice i j s) = j - i.
Proof. intros. unfold slice. rewrite length_take, length_drop. lia. Qed.

(** The loop of [_dequote] keeps [buf] as long as [cursor] when every
    value of the table is one byte. *)
Lemma _dequote_fold_length n :
  (forall k v, table_get k t = Some v -> length v = 1) ->
  forall i (r : bytes) cursor buf last_char,
    i + n <= length s -> length buf = cursor -> cursor <= i ->
    exists cursor' buf' last_char',
      fold_left (_dequote_step s t) (zip (seq i n) r) (cursor, buf, last_char)
      = (cursor', buf', last_char')
      /\ length buf' = cursor' /\ cursor' <= i + n.
Proof.
  intros Ht. induction n as [|n IH]; intros i r cursor buf last_char Hi Hb Hc.
  { cbn. exists cursor, buf, last_char. split; [done|]. lia. }
  destruct r as [|c r].
  { cbn. exists cursor, buf, last_char. split; [done|]. lia. }
  cbn [seq zip_with fold_left]. unfold _dequote_step at 2.
  assert (forall cursor1 buf1,
    length buf1 = cursor1 -> cursor1 <= S i ->
    exists cursor' buf' last_char',
      fold_left (_dequote_step s t) (zip (seq (S i) n) r) (cursor1, buf1, [c])
      = (cursor', buf', last_char')
      /\ length buf' = cursor' /\ cursor' <= i + S n) as Hnext.
  { intros cursor1 buf1 H1 H2.
    destruct (IH (S i) r cursor1 buf1 [c]) as (c' & b' & l' & Hf & Hl & Hle);
      [lia|done|done|].
    exists c', b', l'. split; [done|]. split; [done|lia]. }
  case_bool_decide; [apply Hnext; [done|lia]|].
  destruct (table_get (last_char ++ [c]) t) as [v|] eqn:E.
  - apply Hnext; [|lia].
    rewrite !length_app, length_slice, (Ht _ _ E) by lia. lia.
  - apply Hnext; [done|lia].
Qed.

(** [_dequote] never shortens a string when every value of its table is
    one byte: an escape sequence of two bytes comes back as two bytes. *)
Lemma _dequote_length :
  (forall k v, table_get k t = Some v -> length v = 1) ->
  length (_dequote s t) = length s.
Proof.
  intros Ht. unfold _dequote, enumerate.
  destruct (_dequote_fold_length (length s) Ht 0 s 0 [] [])
    as (c' & b' & l' & Hf & Hl & Hle); [lia|done|lia|].
  unfold bytes in *. rewrite Hf, length_app, length_drop. lia.
Qed.

(** The loop of [_quote]: [buf] runs ahead of [cursor] by one byte for
    every byte it has escaped, when every value of the table is two
    bytes. *)
Lemma _quote_fold_length n :
  (forall k v, table_get k t = Some v -> length v = 2) ->
  forall i (r : bytes) cursor buf,
    i + n <= length s -> cursor <= length buf -> cursor <= i ->
    exists cursor' buf',
      fold_left (_quote_step s t) (zip (seq i n) r) (cursor, buf)
      = (cursor', buf')
      /\ cursor' <= i + n
      /\ length buf - cursor <= length buf' - cursor'
      /\ cursor' <= length buf'
      /\ ((exists j c, r !! j = Some c /\ j < n /\ i + j <> 0
                       /\ is_Some (table_get [c] t)) ->
          length buf - cursor < length buf' - cursor').
Proof.
  intros Ht. induction n as [|n IH]; intros i r cursor buf Hi Hb Hc.
  { cbn. exists cursor, buf. split; [done|]. repeat split; try lia.
    intros (j & c & _ & ? & _). lia. }
  destruct r as [|c r].
  { cbn. exists cursor, buf. split; [done|]. repeat split; try lia.
    intros (j & c & Hj & _). done. }
  cbn [seq zip_with fold_left]. unfold _quote_step at 2.
  destruct (bool_decide (i = 0)) eqn:Hi0;
    [|destruct (table_get [c] t) as [q|] eqn:E].
  - apply bool_decide_eq_true in Hi0.
    destruct (IH (S i) r cursor buf) as (c' & b' & Hf & H1 & H2 & H3 & H4);
      [lia..|].
    exists c', b'. split; [done|]. repeat split; try lia.
    intros (j & x & Hj & Hjn & Hne & Hx). apply H4.
    destruct j as [|j]; [lia|]. exists j, x. cbn in Hj.
    repeat split; try done; lia.
  - apply bool_decide_eq_false in Hi0.
    pose proof (Ht _ _ E) as Hq.
    destruct (IH (S i) r (i + 1) (buf ++ slice cursor i s ++ q))
      as (c' & b' & Hf & H1 & H2 & H3 & H4).
    { lia. }
    { rewrite !length_app, length_slice by lia. lia. }
    { lia. }
    exists c', b'. split; [done|].
    rewrite !length_app, length_slice in H2 by lia.
    repeat split; try lia.
  - apply bool_decide_eq_false in Hi0.
    destruct (IH (S i) r cursor buf) as (c' & b' & Hf & H1 & H2 & H3 & H4);
      [lia..|].
    exists c', b'. split; [done|]. repeat split; try lia.
    intros (j & x & Hj & Hjn & Hne & Hx). apply H4.
    destruct j as [|j].
    + cbn in Hj. injection Hj as <-. rewrite E in Hx. by destruct Hx.
    + exists j, x. cbn in Hj. repeat split; try done; lia.
Qed.

(** [_quote] lengthens a string that holds, past its first byte, a byte
    of the table. *)
Lemma _quote_length p c :
  (forall k v, table_get k t = Some v -> length v = 2) ->
  0 < p -> s !! p = Some c -> is_Some (table_get [c] t) ->
  length s < length (_quote s t).
Proof.
  intros Ht Hp Hc Hsome. unfold _quote, enumerate.
  destruct (_quote_fold_length (length s) Ht 0 s 0 [])
    as (c' & b' & Hf & H1 & H2 & H3 & H4); [cbn; lia..|].
  unfold bytes in *. rewrite Hf, length_app, length_drop.
  assert (length (@nil ascii) - 0 < length b' - c').
  { apply H4. exists p, c. repeat split; try done; [|lia].
    by eapply lookup_lt_Some. }
  cbn in *. lia.
Qed.

End QuoteLengths.

Lemma quote_table_values t k v :
  t = _low_level_quote_table \/ t = _ctcp_quote_table ->
  table_get k t = Some v -> length v = 2.
Proof.
  intros [-> | ->] H; cbn in H; repeat case_bool_decide; by simplify_eq.
Qed.

Lemma dequote_table_values t k v :
  t = _low_level_dequote_table \/ t = _ctcp_dequote_table ->
  table_get k t = Some v -> length v = 1.
Proof.
  intros [-> | ->] H; cbn in H; repeat case_bool_decide; by simplify_eq.
Qed.

(** A string that holds, past its first byte, a byte the transport layer
    escapes does not come back from [low_level_dequote] of
    [low_level_quote]: the result is longer. *)
Lemma low_level_dequote_quote_longer s p c :
  0 < p -> s !! p = Some c -> c ∈ [NUL; NL; CR; M_QUOTE] ->
  length s < length (low_level_dequote (low_level_quote s)).
Proof.
  intros Hp Hc Hin. unfold low_level_dequote, low_level_quote.
  rewrite _dequote_length
    by (intros k v; apply dequote_table_values; by left).
  apply (_quote_length _ _ p c); try done.
  - intros k v; apply quote_table_values; by left.
  - repeat apply elem_of_cons in Hin as [->|Hin]; try (by eexists).
    by apply elem_of_nil in Hin.
Qed.

(** The same for the tag layer. *)
Lemma ctcp_dequote_quote_longer s p c :
  0 < p -> s !! p = Some c -> c ∈ [X_DELIM; X_QUOTE] ->
  length s < length (ctcp_dequote (ctcp_quote s)).
Proof.
  intros Hp Hc Hin. unfold ctcp_dequote, ctcp_quote.
  rewrite _dequote_length
    by (intros k v; apply dequote_table_values; by right).
  apply (_quote_length _ _ p c); try done.
  - intros k v; apply quote_table_values; by right.
  - repeat apply elem_of_cons in Hin as [->|Hin]; try (by eexists).
    by apply elem_of_nil in Hin.
Qed.

(** ** The extended-message codec on well-formed input *)

Section CtcpFacts.

Implicit Types (s p : bytes) (c : ascii) (ps : list bytes)
  (x : bytes * option bytes) (xs : list (bytes * option bytes)).

Lemma plain_elem s c : plain s -> c ∈ s -> c ∉ quoted_bytes.
Proof. intros Hs Hc. by eapply Forall_forall in Hs. Qed.

Lemma ctcp_body_bytes x c :
  extended_ok x -> c ∈ ctcp_body x -> c = DELIM \/ c ∉ quoted_bytes.
Proof.
  destruct x as [tag [d|]]; unfold extended_ok, ctcp_body; cbn [fst snd].
  - intros (Htag & _ & Hd & _) Hc.
    apply elem_of_app in Hc as [Hc|Hc]; [right; exact (plain_elem _ _ Htag Hc)|].
    cbn [app] in Hc. apply elem_of_cons in Hc as [->|Hc]; [by left|].
    right; exact (plain_elem _ _ Hd Hc).
  - intros (Htag & _) Hc. right; exact (plain_elem _ _ Htag Hc).
Qed.

Lemma not_quoted_inv c :
  c ∉ quoted_bytes ->
  c <> NUL /\ c <> NL /\ c <> CR /\ c <> M_QUOTE /\ c <> X_DELIM /\ c <> X_QUOTE.
Proof.
  unfold quoted_bytes. rewrite !not_elem_of_cons. tauto.
Qed.

Lemma ctcp_body_free x c :
  extended_ok x -> c ∈ quoted_bytes -> c ∉ ctcp_body x.
Proof.
  intros Hx Hc Hin. destruct (ctcp_body_bytes x c Hx Hin) as [->|Hn]; [|done].
  revert Hc. compute_done.
Qed.

Lemma ctcp_quote_body x : extended_ok x -> ctcp_quote (ctcp_body x) = ctcp_body x.
Proof.
  intros Hx. apply _quote_id. intros c Hc.
  destruct (ctcp_body_bytes x c Hx Hc) as [->|Hn]; [done|].
  apply not_quoted_inv in Hn as (_ & _ & _ & _ & H1 & H2).
  cbn. repeat case_bool_decide; simplify_eq; done.
Qed.

Lemma ctcp_dequote_body x : extended_ok x -> ctcp_dequote (ctcp_body x) = ctcp_body x.
Proof.
  intros Hx. apply (_dequote_id _ _ X_QUOTE).
  - apply ctcp_dequote_table_head.
  - apply ctcp_body_free; [done|compute_done].
Qed.

Lemma ctcp_body_truthy x : extended_ok x -> truthy (ctcp_body x) = true.
Proof.
  destruct x as [tag [d|]]; unfold extended_ok, ctcp_body; cbn [fst snd].
  - intros _. by destruct tag.
  - intros (_ & _ & Hne). by destruct tag.
Qed.

Lemma ctcp_encode_step_ok buf x :
  extended_ok x ->
  ctcp_encode_step buf (to_ctcp_param x)
  = buf ++ ([X_DELIM] ++ ctcp_body x ++ [X_DELIM]).
Proof.
  intros Hx. rewrite <- (ctcp_quote_body x Hx) at 1.
  destruct x as [tag [d|]]; unfold ctcp_encode_step, to_ctcp_param, ctcp_body;
    cbn [fst snd to_data data_truthy]; [|done].
  destruct Hx as (_ & _ & _ & Hd). cbn [snd] in Hd. by destruct d.
Qed.

Lemma ctcp_encode_fold buf xs :
  Forall extended_ok xs ->
  fold_left ctcp_encode_step (map to_ctcp_param xs) buf = buf ++ ctcp_wrap xs.
Proof.
  revert buf. induction xs as [|x xs IH]; intros buf Hxs.
  - by rewrite app_nil_r.
  - apply Forall_cons in Hxs as [Hx Hxs]. cbn [map fold_left].
    rewrite ctcp_encode_step_ok, IH by done.
    unfold ctcp_wrap. cbn [map concat]. by rewrite <- !app_assoc.
Qed.

Lemma ctcp_wrap_cons x xs :
  ctcp_wrap (x :: xs) = X_DELIM :: ctcp_body x ++ X_DELIM :: ctcp_wrap xs.
Proof. unfold ctcp_wrap. cbn [map concat app]. by rewrite <- app_assoc. Qed.

Lemma ctcp_wrap_bytes xs c :
  Forall extended_ok xs -> c ∈ ctcp_wrap xs ->
  c = X_DELIM \/ c = DELIM \/ c ∉ quoted_bytes.
Proof.
  induction xs as [|x xs IH]; intros Hxs Hc.
  - by apply elem_of_nil in Hc.
  - apply Forall_cons in Hxs as [Hx Hxs]. rewrite ctcp_wrap_cons in Hc.
    apply elem_of_cons in Hc as [->|Hc]; [by left|].
    apply elem_of_app in Hc as [Hc|Hc].
    + right. by apply (ctcp_body_bytes x).
    + apply elem_of_cons in Hc as [->|Hc]; [by left|]. by apply IH.
Qed.

Lemma low_level_quote_wrap xs :
  Forall extended_ok xs -> low_level_quote (ctcp_wrap xs) = ctcp_wrap xs.
Proof.
  intros Hxs. apply _quote_id. intros c Hc.
  destruct (ctcp_wrap_bytes xs c Hxs Hc) as [->|[->|Hn]]; [done..|].
  apply not_quoted_inv in Hn as (H1 & H2 & H3 & H4 & _).
  cbn. repeat case_bool_decide; simplify_eq; done.
Qed.

Lemma ctcp_wrap_no_M_QUOTE xs : Forall extended_ok xs -> M_QUOTE ∉ ctcp_wrap xs.
Proof.
  intros Hxs Hc.
  destruct (ctcp_wrap_bytes xs _ Hxs Hc) as [?|[?|Hn]]; [done..|].
  revert Hn. compute_done.
Qed.

Lemma elem_of_join sep ps c :
  c ∈ join sep ps -> c ∈ sep \/ exists p, p ∈ ps /\ c ∈ p.
Proof.
  induction ps as [|p ps IH]; intros Hc.
  - by apply elem_of_nil in Hc.
  - destruct ps as [|p' ps].
    + right. exists p. split; [apply list_elem_of_here|done].
    + rewrite join_cons_cons in Hc.
      apply elem_of_app in Hc as [Hc|Hc].
      { right. exists p. split; [apply list_elem_of_here|done]. }
      apply elem_of_app in Hc as [Hc|Hc]; [by left|].
      destruct (IH Hc) as [?|(q & Hq & Hcq)]; [by left|].
      right. exists q. split; [by apply list_elem_of_further|done].
Qed.

(** The tokens joined by the separator, with one more separator: no
    byte [c] that is neither the separator nor in a token. *)
Lemma join_tokens_free ps c :
  c <> DELIM -> Forall (fun p => c ∉ p) ps -> c ∉ join [DELIM] ps ++ [DELIM].
Proof.
  intros Hc Hps Hin. apply elem_of_app in Hin as [Hin|Hin].
  - apply elem_of_join in Hin as [Hin|(p & Hp & Hin)].
    + by apply list_elem_of_singleton in Hin.
    + by eapply Forall_forall in Hps.
  - by apply list_elem_of_singleton in Hin.
Qed.

(** The delimiter byte cuts the wrapped extended messages into their
    bodies, each followed by an empty segment. *)
Lemma split_wrap s xs :
  X_DELIM ∉ s -> Forall extended_ok xs ->
  split X_DELIM (s ++ ctcp_wrap xs)
  = s :: flat_map (fun x => [ctcp_body x; []]) xs.
Proof.
  revert s. induction xs as [|x xs IH]; intros s Hs Hxs.
  - unfold ctcp_wrap. cbn. rewrite app_nil_r. by apply split_fresh.
  - apply Forall_cons in Hxs as [Hx Hxs]. rewrite ctcp_wrap_cons.
    rewrite split_app by done.
    rewrite split_app by (apply ctcp_body_free; [done|compute_done]).
    change (ctcp_wrap xs) with ([] ++ ctcp_wrap xs).
    rewrite (IH []) by (done || apply not_elem_of_nil). done.
Qed.

Lemma filter_truthy_tokens ps :
  Forall (fun p => p <> []) ps ->
  filter (fun t => truthy t = true) ps = ps.
Proof.
  induction 1 as [|p ps Hp _ IH]; [done|].
  rewrite filter_cons_True by (by destruct p). by rewrite IH.
Qed.

(** The even-offset segment in front of the extended messages gives back
    the plain tokens. *)
Lemma ctcp_decode_step_tokens ext normal ps :
  ps <> [] -> Forall token_ok ps ->
  ctcp_decode_step (false, ext, normal) (join [DELIM] ps ++ [DELIM])
  = (true, ext, normal ++ ps).
Proof.
  intros Hne Hps. unfold ctcp_decode_step.
  assert (truthy (join [DELIM] ps ++ [DELIM]) = true) as ->
    by (by destruct (join [DELIM] ps)).
  rewrite split_join_snoc.
  - rewrite filter_app, filter_truthy_tokens.
    + by rewrite filter_cons_False, filter_nil, app_nil_r.
    + eapply Forall_impl; [done|]. by intros p [? _].
  - done.
  - eapply Forall_impl; [done|]. by intros p (_ & ? & _).
  - apply not_elem_of_nil.
Qed.

(** An odd-offset segment gives back its extended message, and the empty
    even-offset segment after it gives nothing. *)
Lemma ctcp_decode_step_body ext normal x :
  extended_ok x ->
  ctcp_decode_step (ctcp_decode_step (true, ext, normal) (ctcp_body x)) []
  = (true, ext ++ [to_ctcp_param x], normal).
Proof.
  intros Hx. unfold ctcp_decode_step at 2.
  rewrite ctcp_body_truthy, ctcp_dequote_body by done.
  destruct x as [tag [d|]]; destruct Hx as (_ & Htag & _);
    unfold ctcp_body, to_ctcp_param; cbn [fst snd to_data app] in *.
  - by rewrite split1_char_app.
  - by rewrite split1_char_none.
Qed.

Lemma ctcp_decode_fold ext normal xs :
  Forall extended_ok xs ->
  fold_left ctcp_decode_step (flat_map (fun x => [ctcp_body x; []]) xs)
    (true, ext, normal)
  = (true, ext ++ map to_ctcp_param xs, normal).
Proof.
  revert ext. induction xs as [|x xs IH]; intros ext Hxs.
  - cbn. by rewrite app_nil_r.
  - apply Forall_cons in Hxs as [Hx Hxs].
    cbn [flat_map app fold_left map].
    rewrite ctcp_decode_step_body, IH by done.
    by rewrite <- app_assoc.
Qed.

End CtcpFacts.

(** ** Round trip of the extended-message codec *)

(** On input that the two quoting layers leave as it is, the codec of
    extended messages does round-trip: for a command token free of the
    separator and of a leading ':', at least one plain token, the plain
    tokens non-empty and free of the separator, of the delimiter byte and
    of the transport escape byte and, but for the first, not starting
    with ':', and extended messages whose tag and data hold none of the
    bytes the two quoting layers escape, with no separator in the tag,
    data absent or a non-empty string, and a non-empty tag when data is
    absent: [encode] gives a line followed by CR LF, and decoding the
    line gives the same plain tokens and the same extended messages. *)
Theorem ctcp_decode_encode_well_formed cmd ps xs :
  command_ok cmd ->
  ps <> [] ->
  Forall token_ok ps ->
  Forall (fun p => startswith p [":"] = false) (tail ps) ->
  Forall extended_ok xs ->
  exists line,
    ctcp_encode (mkCTCPMessage None cmd ps (map to_ctcp_param xs))
    = Ok (line ++ CRLF)
    /\ ctcp_decode line
       = Ok (mkCTCPMessage (Some []) cmd ps (map to_ctcp_param xs)).
Proof.
  intros Hcmd Hne Hps Hcol Hxs.
  assert (middle_ok ps) as Hmid.
  { repeat split; [done| |done].
    eapply Forall_impl; [done|]. by intros p (_ & ? & _). }
  exists (frame_line cmd ps (ctcp_wrap xs)). split.
  - unfold ctcp_encode.
    cbn [ctcp_prefix ctcp_command ctcp_plain ctcp_params].
    rewrite (ctcp_encode_fold [] xs) by done. cbn [app].
    rewrite low_level_quote_wrap by done.
    by rewrite irc_unsplit_list.
  - unfold ctcp_decode. rewrite irc_split_frame_line by done.
    destruct (ps ++ [ctcp_wrap xs]) as [|p0 ps0] eqn:E;
      [by destruct ps|]. rewrite <- E. clear E p0 ps0.
    rewrite join_snoc by done. cbn [app].
    unfold low_level_dequote.
    rewrite (_dequote_id _ _ M_QUOTE).
    + change (join [DELIM] ps ++ DELIM :: ctcp_wrap xs)
        with (join [DELIM] ps ++ [DELIM] ++ ctcp_wrap xs).
      rewrite app_assoc, split_wrap; [|apply join_tokens_free|]; try done.
      * cbn [fold_left]. rewrite (ctcp_decode_step_tokens [] []) by done.
        by rewrite ctcp_decode_fold.
      * eapply Forall_impl; [done|]. by intros p (_ & _ & ? & _).
    + apply low_level_dequote_table_head.
    + change (join [DELIM] ps ++ DELIM :: ctcp_wrap xs)
        with (join [DELIM] ps ++ [DELIM] ++ ctcp_wrap xs).
      rewrite app_assoc. intros Hin. apply elem_of_app in Hin as [Hin|Hin].
      * revert Hin. apply join_tokens_free; [done|].
        eapply Forall_impl; [done|]. by intros p (_ & _ & _ & ?).
      * by apply ctcp_wrap_no_M_QUOTE in Hin.
Qed.

Lemma ctcp_decode_encode_well_formed_witness :
  command_ok (b "PRIVMSG")
  /\ [b "bob"] <> []
  /\ Forall token_ok [b "bob"]
  /\ Forall (fun p => startswith p [":"] = false) (tail [b "bob"])
  /\ Forall extended_ok [(b "ACTION", Some (b "waves")); (b "VERSION", None)]
  /\ exists line,
       ctcp_encode
         (mkCTCPMessage None (b "PRIVMSG") [b "bob"]
            (map to_ctcp_param [(b "ACTION", Some (b "waves")); (b "VERSION", None)]))
       = Ok (line ++ CRLF)
       /\ ctcp_decode line
          = Ok (mkCTCPMessage (Some []) (b "PRIVMSG") [b "bob"]
                  (map to_ctcp_param [(b "ACTION", Some (b "waves")); (b "VERSION", None)])).
Proof.
  assert (command_ok (b "PRIVMSG")) as H1 by (split; [compute_done | reflexivity]).
  assert ([b "bob"] <> []) as H2 by discriminate.
  assert (Forall token_ok [b "bob"]) as H3
    by (repeat constructor; (discriminate || compute_done)).
  assert (Forall (fun p => startswith p [":"] = false) (tail [b "bob"])) as H4
    by constructor.
  assert (Forall extended_ok [(b "ACTION", Some (b "waves")); (b "VERSION", None)]) as H5
    by (unfold extended_ok, plain; repeat constructor; cbn [fst snd];
        (discriminate || compute_done)).
  repeat (split; [assumption|]).
  exact (ctcp_decode_encode_well_formed _ _ _ H1 H2 H3 H4 H5).
Defined.

(** C3: the round trip fails at
    [CTCPMessage("PRIVMSG", ["bob"], [("ACTION", "a\x01b")])]. The data,
    which holds the delimiter byte, comes back with the escape byte left
    in front of it, through the line with or without its terminator:
    [ctcp_dequote] does not undo [ctcp_quote]. Besides, decoding the line
    with its terminator adds the token CR LF to the plain tokens, and
    empty data comes back as absent data. *)
Lemma ctcp_decode_encode_differs :
  ctcp_encode action_with_delimiter
  = Ok ((b "PRIVMSG bob :" ++ [X_DELIM] ++ b "ACTION a"
         ++ [X_QUOTE; "a"; "b"; X_DELIM]) ++ CRLF)
  /\ ctcp_decode (b "PRIVMSG bob :" ++ [X_DELIM] ++ b "ACTION a"
                  ++ [X_QUOTE; "a"; "b"; X_DELIM])
     = Ok (mkCTCPMessage (Some []) (b "PRIVMSG") [b "bob"]
             [(b "ACTION", DataStr ["a"; X_QUOTE; X_DELIM; "b"])])
  /\ ctcp_decode ((b "PRIVMSG bob :" ++ [X_DELIM] ++ b "ACTION a"
                   ++ [X_QUOTE; "a"; "b"; X_DELIM]) ++ CRLF)
     = Ok (mkCTCPMessage (Some []) (b "PRIVMSG") [b "bob"; CRLF]
             [(b "ACTION", DataStr ["a"; X_QUOTE; X_DELIM; "b"])])
  /\ [(b "ACTION", DataStr ["a"; X_QUOTE; X_DELIM; "b"])]
     <> ctcp_params action_with_delimiter
  /\ [b "bob"; CRLF] <> ctcp_plain action_with_delimiter
  /\ ctcp_encode (mkCTCPMessage None (b "PRIVMSG") [b "bob"] [(b "PING", DataStr [])])
     = Ok ((b "PRIVMSG bob :" ++ [X_DELIM] ++ b "PING" ++ [X_DELIM]) ++ CRLF)
  /\ ctcp_decode (b "PRIVMSG bob :" ++ [X_DELIM] ++ b "PING" ++ [X_DELIM])
     = Ok (mkCTCPMessage (Some []) (b "PRIVMSG") [b "bob"] [(b "PING", DataNone)]).
Proof. repeat split; try reflexivity; vm_compute; discriminate. Qed.

(** ** The nick slots *)

(** C10: when no change is in flight, [_new_nick] is [None], so [None] is
    a member of the pair [(self._nick, self._new_nick)] and
    [matches_nick(None)] is [True]. *)
Theorem matches_nick_None_when_stable (c : client) :
  _new_nick c = None -> matches_nick None c = true.
Proof.
  intros H. unfold matches_nick. rewrite H.
  apply orb_true_iff. right. by apply bool_decide_eq_true.
Qed.

Lemma matches_nick_None_when_stable_witness :
  _new_nick (init (b "alice") ∅) = None
  /\ matches_nick None (init (b "alice") ∅) = true.
Proof.
  split; [reflexivity|].
  exact (matches_nick_None_when_stable (init (b "alice") ∅) eq_refl).
Defined.

Section NickFacts.

Context (msg : Type) (message_Nick message_Quit : pyval -> M msg)
  (message_send : msg -> M unit) (wait_for_messages : M unit)
  (nick_lock_wait : client -> client).

Local Abbreviation send_and_wait' :=
  (send_and_wait msg message_Nick message_Quit message_send wait_for_messages).
Local Abbreviation nick_setter' :=
  (nick_setter msg message_Nick message_Quit message_send wait_for_messages
     nick_lock_wait).

(** C7: whatever the message operations and the wait do, the setter ends
    with [_new_nick] equal to [None], on a normal return and on an
    exception; and on a normal return [_nick] is the value [_new_nick]
    held when the send and the wait were over, in an attempt that started
    with [_new_nick] equal to the requested nick. *)
Theorem nick_setter_clears_pending (new_nick : pyval) (c : client) :
  _new_nick (snd (nick_setter' new_nick c)) = None
  /\ (fst (nick_setter' new_nick c) = Ok tt ->
      exists c0 c1,
        _new_nick c0 = new_nick
        /\ send_and_wait' new_nick c0 = (Ok tt, c1)
        /\ _nick (snd (nick_setter' new_nick c)) = _new_nick c1).
Proof.
  unfold nick_setter, with_nick_lock, try_finally.
  set (c0 := set__nick_lock _ _).
  unfold mbind, M_bind, modify, get. cbn beta iota.
  destruct (send_and_wait' new_nick (set__new_nick new_nick c0))
    as [[[]|e] c1] eqn:E; cbn.
  - split; [done|]. intros _. by exists (set__new_nick new_nick c0), c1.
  - split; [done|]. discriminate.
Qed.

(** X18. The handler ignores a rejection that names neither slot it looks
    at (the pending nick during a change, the confirmed nick otherwise):
    no slot changes and the setter is not called. *)
Lemma nick_in_use_other_nick_ignored increment_nick bad rest c :
  Some bad <> (if py_truthy (_new_nick c) then _new_nick c else _nick c) ->
  nick_in_use msg message_Nick message_Quit message_send wait_for_messages
    nick_lock_wait increment_nick (bad :: rest) c
  = (Ok tt, c).
Proof.
  intros Hne. unfold nick_in_use, mbind, M_bind, get, mret, M_ret.
  destruct (py_truthy (_new_nick c)); by rewrite bool_decide_true.
Qed.

(** In the stable case the handler goes on to the lookup of
    [increment_nick], under the lock: with no change in flight, for a
    rejection of the confirmed nick that is still the confirmed nick once
    the lock is held. *)
Lemma nick_in_use_stable increment_nick bad rest c :
  py_truthy (_new_nick c) = false ->
  _nick c = Some bad ->
  _nick (if bool_decide (_nick_lock c = 0) then nick_lock_wait c else c)
  = Some bad ->
  nick_in_use msg message_Nick message_Quit message_send wait_for_messages
    nick_lock_wait increment_nick (bad :: rest) c
  = with_nick_lock nick_lock_wait
      (match increment_nick with
       | Some f => nick_setter' (f (Some bad))
       | None =>
           raise (AttributeError
                    "'Client' object has no attribute 'increment_nick'")
       end) c.
Proof.
  intros Hst Hnick Hstill.
  unfold nick_in_use, mbind, M_bind, get, mret, M_ret.
  rewrite Hst, Hnick, bool_decide_false by (by intros []).
  unfold with_nick_lock.
  set (c0 := if bool_decide (_nick_lock c = 0) then nick_lock_wait c else c) in *.
  cbn [_nick set__nick_lock]. rewrite Hstill.
  by rewrite bool_decide_false by (by intros []).
Qed.

(** X17. With no change in flight, a rejection of the confirmed nick that
    is still the confirmed nick once the lock is held does not start a
    rename on a [Client] as the source has it: the handler reaches
    [self.increment_nick], which the class does not define, and ends with
    [AttributeError]. The setter is not called, nothing is sent, and the
    client is left as it was when the lock was taken, the lock released. *)
Theorem nick_in_use_stable_raises bad rest c :
  py_truthy (_new_nick c) = false ->
  _nick c = Some bad ->
  _nick (if bool_decide (_nick_lock c = 0) then nick_lock_wait c else c)
  = Some bad ->
  nick_in_use msg message_Nick message_Quit message_send wait_for_messages
    nick_lock_wait None (bad :: rest) c
  = (Raise (AttributeError "'Client' object has no attribute 'increment_nick'"),
     if bool_decide (_nick_lock c = 0) then nick_lock_wait c else c).
Proof.
  intros Hst Hnick Hstill.
  rewrite nick_in_use_stable by done.
  unfold with_nick_lock, raise.
  by destruct (if bool_decide (_nick_lock c = 0) then nick_lock_wait c else c).
Qed.

End NickFacts.

(** C8: a change to [bad] is in flight, the rejection names [bad], and
    the handler greenlet does not hold the lock. The handler sets
    [_new_nick] back to [_nick] and waits for the lock; the greenlet in
    the setter then promotes that value and clears [_new_nick]; once the
    handler holds the lock it compares the rejected nick with [_nick],
    which is the old nick, and returns. The setter is not called, so no
    next candidate is tried. *)
Theorem nick_in_use_changing_no_retry (msg : Type)
    (message_Nick message_Quit : pyval -> M msg) (message_send : msg -> M unit)
    (wait_for_messages : M unit) (increment_nick : option (pyval -> pyval))
    (bad : bytes) (rest : list bytes) (c : client) :
  _new_nick c = Some bad ->
  bad <> [] ->
  _nick c <> Some bad ->
  _nick_lock c = 0 ->
  nick_in_use msg message_Nick message_Quit message_send wait_for_messages
    finish_change increment_nick (bad :: rest) c
  = (Ok tt, finish_change (set__new_nick (_nick c) c)).
Proof.
  intros Hnew Hbad Hold Hlock.
  unfold nick_in_use, mbind, M_bind, get, mret, M_ret, modify.
  rewrite Hnew. cbn [py_truthy].
  assert (truthy bad = true) as -> by (by destruct bad).
  rewrite bool_decide_false by (by intros []).
  unfold with_nick_lock. cbn [_nick_lock set__new_nick].
  rewrite Hlock, bool_decide_true by done.
  rewrite bool_decide_true by (cbn; congruence).
  destruct c. cbn in *. by subst.
Qed.

Lemma nick_setter_clears_pending_witness :
  fst (nick_setter pyval mret mret send_nick renamed_during_wait id
         (Some (b "bob")) (init (b "alice") ∅)) = Ok tt
  /\ _nick (snd (nick_setter pyval mret mret send_nick renamed_during_wait id
                   (Some (b "bob")) (init (b "alice") ∅))) = Some (b "bob_")
  /\ _new_nick (snd (nick_setter pyval mret mret send_nick renamed_during_wait id
                       (Some (b "bob")) (init (b "alice") ∅))) = None.
Proof.
  split; [reflexivity|]. split; [reflexivity|].
  exact (proj1 (nick_setter_clears_pending pyval mret mret send_nick
                  renamed_during_wait id (Some (b "bob")) (init (b "alice") ∅))).
Defined.

Lemma nick_in_use_changing_no_retry_witness :
  _new_nick (set__new_nick (Some (b "bob")) (init (b "alice") ∅)) = Some (b "bob")
  /\ b "bob" <> []
  /\ _nick (set__new_nick (Some (b "bob")) (init (b "alice") ∅)) <> Some (b "bob")
  /\ _nick_lock (set__new_nick (Some (b "bob")) (init (b "alice") ∅)) = 0
  /\ nick_in_use pyval mret mret send_nick (mret tt) finish_change None
       [b "bob"] (set__new_nick (Some (b "bob")) (init (b "alice") ∅))
     = (Ok tt, init (b "alice") ∅).
Proof.
  assert (b "bob" <> []) as H2 by discriminate.
  assert (_nick (set__new_nick (Some (b "bob")) (init (b "alice") ∅))
          <> Some (b "bob")) as H3 by discriminate.
  split; [reflexivity|]. split; [exact H2|]. split; [exact H3|].
  split; [reflexivity|].
  exact (nick_in_use_changing_no_retry pyval mret mret send_nick (mret tt)
           None (b "bob") []
           (set__new_nick (Some (b "bob")) (init (b "alice") ∅))
           eq_refl H2 H3 eq_refl).
Defined.

(** ** Shutdown *)

Section StopFacts.

Context (handler : nat -> M unit).

Implicit Types (c : client) (fn g : nat) (fns : list nat).




(** One call: the log grows by the call, and the result and the rest of
    the client are the handler's. *)
Lemma call_stop_handler_fields fn c :
  fst (call_stop_handler handler fn c) = fst (handler fn c)
  /\ log (snd (call_stop_handler handler fn c)) = log c ++ [StopHandlerCalled fn]
  /\ stopped (snd (call_stop_handler handler fn c)) = stopped (snd (handler fn c))
  /\ stop_handlers (snd (call_stop_handler handler fn c))
     = stop_handlers (snd (handler fn c)).
Proof. unfold call_stop_handler. by destruct (handler fn c). Qed.

(** The iterator at position [pos] of a set of [pos + todo] entries has
    an entry to yield exactly when [todo] is not zero. *)
Lemma elements_lookup_todo (s : gset nat) pos todo :
  size s = pos + S todo ->
  exists fn, elements s !! pos = Some fn
             /\ drop pos (elements s) = fn :: drop (S pos) (elements s)
             /\ fn ∈ s.
Proof.
  intros Hsize.
  destruct (lookup_lt_is_Some_2 (elements s) pos) as [fn Hfn].
  { change (size s) with (length (elements s)) in Hsize. lia. }
  exists fn. split; [done|]. split; [by apply drop_S|].
  apply elem_of_elements. by eapply list_elem_of_lookup_2.
Qed.

(** The loop over the stop handlers, when the handlers leave the flag and
    the set alone: it calls a front part of the entries not yet yielded,
    each once, and all of them when none raises. *)
Lemma call_stop_handlers_spec pos todo c :
  keeps_shutdown_state handler ->
  size (stop_handlers c) = pos + todo ->
  exists called skipped,
    drop pos (elements (stop_handlers c)) = called ++ skipped
    /\ log (snd (call_stop_handlers handler pos todo c))
       = log c ++ map StopHandlerCalled called
    /\ stopped (snd (call_stop_handlers handler pos todo c)) = stopped c
    /\ stop_handlers (snd (call_stop_handlers handler pos todo c))
       = stop_handlers c
    /\ ((forall f c', f ∈ stop_handlers c -> fst (handler f c') = Ok tt) ->
        skipped = [] /\ fst (call_stop_handlers handler pos todo c) = Ok tt).
Proof.
  intros Hkeep. revert pos c.
  induction todo as [|todo IH]; intros pos c Hsize;
    cbn [call_stop_handlers]; rewrite bool_decide_true by done.
  - exists [], []. cbn. rewrite app_nil_r. repeat split; try done.
    apply drop_ge. change (size (stop_handlers c))
      with (length (elements (stop_handlers c))) in Hsize. lia.
  - destruct (elements_lookup_todo _ _ _ Hsize) as (fn & -> & -> & Hin).
    unfold mbind, M_bind.
    destruct (call_stop_handler_fields fn c) as (Hf & Hl & Hs & Hh).
    destruct (Hkeep fn c) as [Hk1 Hk2]. rewrite Hk1 in Hs. rewrite Hk2 in Hh.
    destruct (call_stop_handler handler fn c) as [[[]|e] c1];
      cbn [fst snd] in *.
    + destruct (IH (S pos) c1) as (called & skipped & Hd & Hlog & Hst & Hset & Hall).
      { rewrite Hh. lia. }
      rewrite Hh in Hd, Hall.
      exists (fn :: called), skipped. rewrite Hd, Hlog, Hst, Hset, Hl, Hs, Hh.
      cbn [map]. rewrite <- app_assoc. done.
    + exists [fn], (drop (S pos) (elements (stop_handlers c))).
      split; [done|]. split; [by rewrite Hl|]. split; [done|]. split; [done|].
      intros Hok. specialize (Hok fn c Hin). congruence.
Qed.

Lemma foldr_unregister_all_fields (hs : list nat) c :
  stopped (foldr unregister_all c hs) = stopped c
  /\ log (foldr unregister_all c hs) = log c.
Proof. induction hs as [|h hs [IH1 IH2]]; [done|]. cbn. by rewrite IH1, IH2. Qed.

(** The clean-up touches neither the flag nor the log. *)
Lemma post_stop_stopped c : stopped (post_stop c) = stopped c.
Proof.
  unfold post_stop. cbn [stopped].
  by rewrite (proj1 (foldr_unregister_all_fields _ _)).
Qed.



(** The client the first [stop] leaves: the one of the handler loop, run
    after the kill of the group, and cleaned up when the loop ended
    without an exception. *)
Lemma stop_unfold g c :
  stopped c = false ->
  snd (stop handler g c)
  = match call_stop_handlers handler 0 (size (stop_handlers c))
            (kill_group (set_stopped true c)) with
    | (Ok _, c2) => post_stop c2
    | (Raise _, c2) => c2
    end.
Proof.
  intros Hs. unfold stop. rewrite Hs.
  unfold _stop, mbind, M_bind, modify, get. cbn [stop_handlers kill_group set_stopped].
  by destruct (call_stop_handlers handler 0 _ _) as [[[]|e] c2].
Qed.



End StopFacts.




(** X29. A line made of a command and of one parameter written as a
    trailing parameter, the parameter holding no space, decodes to one
    parameter that keeps the ':' marker in front. *)
Lemma decode_single_trailing_keeps_marker cmd t :
  command_ok cmd -> DELIM ∉ t ->
  decode (cmd ++ [DELIM; ":"] ++ t)
  = Ok (mkMessage (Some []) cmd (ParamsList [":" :: t])).
Proof.
  intros [Hsp Hcol] Ht. unfold decode, irc_split.
  assert (startswith (cmd ++ [DELIM; ":"] ++ t) [":"] = false) as ->
    by (by destruct cmd).
  cbn [app]. rewrite split1_char_app by done. cbn [unpack2].
  assert (DELIM ∉ ":" :: t) as Hs.
  { apply not_elem_of_cons. split; [done|exact Ht]. }
  unfold split1 at 1.
  rewrite <- (app_nil_r (":" :: t)) at 1.
  rewrite find_pair_skip by done. cbn [find startswith fmap option_fmap option_map unpack2].
  by rewrite split_fresh.
Qed.

(** ** More facts about the string primitives *)

Section PyStrMore.

Implicit Types (s r t : bytes) (c d : ascii) (rs : list bytes).

Lemma contains_elem c s : contains c s = true <-> c ∈ s.
Proof.
  unfold contains. induction s as [|a s IH]; cbn.
  - split; [done|by intros ?%elem_of_nil].
  - rewrite elem_of_cons, orb_true_iff, IH, bool_decide_eq_true.
    split; (intros [?|?]; [left|right]); done.
Qed.

Lemma contains_false c s : contains c s = false <-> c ∉ s.
Proof.
  rewrite <- contains_elem. by destruct (contains c s).
Qed.

(** [s.split(c, 1)] at the first [c] of a string that holds one. *)
Lemma split1_char_elem c s :
  c ∈ s -> exists a r, split1 [c] s = [a; r] /\ s = a ++ c :: r /\ c ∉ a.
Proof.
  intros (a & r & -> & Ha)%list_elem_of_split_l.
  exists a, r. by rewrite split1_char_app.
Qed.

Lemma split_nonempty c s : split c s <> [].
Proof.
  destruct s as [|a s]; cbn; [done|].
  case_bool_decide; [done|]. by destruct (split c s).
Qed.

Lemma split_cons_ne c a s :
  a <> c ->
  split c (a :: s)
  = (a :: default [] (head (split c s))) :: tail (split c s).
Proof.
  intros Hne. cbn. rewrite bool_decide_false by done.
  pose proof (split_nonempty c s). by destruct (split c s).
Qed.

(** No piece of a split holds the separator. *)
Lemma split_pieces_fresh c s : Forall (fun p => c ∉ p) (split c s).
Proof.
  induction s as [|a s IH]; cbn.
  - repeat constructor. apply not_elem_of_nil.
  - case_bool_decide as Hac.
    + constructor; [apply not_elem_of_nil|done].
    + destruct (split c s) as [|p ps].
      { repeat constructor. by intros ->%list_elem_of_singleton. }
      apply Forall_cons in IH as [Hp Hps]. constructor; [|done].
      apply not_elem_of_cons. by split; [congruence|].
Qed.

(** The bytes of a piece are bytes of the string. *)
Lemma split_pieces_bytes c s p x : p ∈ split c s -> x ∈ p -> x ∈ s.
Proof.
  revert p. induction s as [|a s IH]; intros p; cbn.
  - intros ->%list_elem_of_singleton. by intros ?%elem_of_nil.
  - case_bool_decide as Hac.
    + intros [->|Hp]%elem_of_cons Hx; [by apply elem_of_nil in Hx|].
      apply elem_of_cons. right. by eapply IH.
    + destruct (split c s) as [|q qs] eqn:E.
      { intros ->%list_elem_of_singleton ->%list_elem_of_singleton.
        apply list_elem_of_here. }
      intros [->|Hp]%elem_of_cons Hx.
      * apply elem_of_cons in Hx as [->|Hx]; [by apply elem_of_cons; left|].
        apply elem_of_cons. right. apply (IH q); [apply list_elem_of_here|done].
      * apply elem_of_cons. right. apply (IH p); [by apply list_elem_of_further|done].
Qed.

(** Joining the pieces of a split with the separator gives the string. *)
Lemma join_split c s : join [c] (split c s) = s.
Proof.
  induction s as [|a s IH]; [done|]. cbn [split].
  pose proof (split_nonempty c s) as Hne.
  case_bool_decide as Hac.
  - subst a. destruct (split c s) as [|p ps] eqn:E; [done|].
    rewrite join_cons_cons. by rewrite IH.
  - destruct (split c s) as [|p ps] eqn:E; [done|].
    destruct ps as [|q qs].
    + cbn in *. by rewrite IH.
    + rewrite join_cons_cons. rewrite join_cons_cons in IH. by rewrite <- IH.
Qed.

Lemma find_pair_Some d c s i :
  find [d; c] s = Some i -> s = take i s ++ d :: c :: drop (i + 2) s.
Proof.
  revert i. induction s as [|a s IH]; intros i; [done|].
  rewrite find_cons. destruct (startswith (a :: s) [d; c]) eqn:E.
  - intros [= <-]. cbn in E. destruct s as [|a' s]; [by rewrite andb_false_r in E|].
    apply andb_prop in E as [->%bool_decide_eq_true E].
    apply andb_prop in E as [->%bool_decide_eq_true _]. done.
  - destruct (find [d; c] s) as [j|] eqn:Ej; [|done].
    intros [= <-]. cbn. f_equal. by apply IH.
Qed.

(** [s.split(d + c, 1)] that gives two pieces cuts the string around
    one separator. *)
Lemma split1_pair_inv d c s a r :
  split1 [d; c] s = [a; r] -> s = a ++ d :: c :: r.
Proof.
  unfold split1. destruct (find [d; c] s) as [i|] eqn:E; [|done].
  intros [= <- <-]. by apply find_pair_Some.
Qed.

Lemma split1_cases sep s :
  split1 sep s = [s] \/ exists a r, split1 sep s = [a; r].
Proof. unfold split1. destruct (find sep s); eauto. Qed.

End PyStrMore.

(** ** What [irc_split] accepts and what it returns *)

Section SplitFacts.

Implicit Types (data buf rest cmd p t : bytes) (ps : list bytes).

Lemma split1_char_dec c (s : bytes) :
  ((c ∉ s) /\ split1 [c] s = [s])
  \/ (exists a r, split1 [c] s = [a; r] /\ s = a ++ c :: r /\ (c ∉ a)).
Proof.
  destruct (decide (c ∈ s)) as [Hin|Hn].
  - right. by apply split1_char_elem.
  - left. split; [done|]. by apply split1_char_none.
Qed.

(** The three stages of a successful [irc_split]: the prefix, the
    command, and the parameters with or without a trailing one. *)
Lemma irc_split_inv data p cmd ps :
  irc_split data = Ok (p, cmd, ps) ->
  exists buf rest,
    ((p = [] /\ buf = data)
     \/ (startswith data [":"] = true
         /\ drop 1 data = p ++ DELIM :: buf /\ (DELIM ∉ p)))
    /\ buf = cmd ++ DELIM :: rest /\ (DELIM ∉ cmd)
    /\ (ps = split DELIM rest
        \/ exists middle t,
             rest = middle ++ DELIM :: ":" :: t
             /\ ps = split DELIM middle ++ [t]).
Proof.
  unfold irc_split.
  set (stage1 := if startswith data [":"] then _ else _).
  assert (exists p0 buf, stage1 = (p0, buf)
            /\ ((p0 = [] /\ buf = data)
                \/ (startswith data [":"] = true
                    /\ drop 1 data = p0 ++ DELIM :: buf /\ (DELIM ∉ p0))))
    as (p0 & buf & -> & Hstage1).
  { subst stage1. destruct (startswith data [":"]) eqn:Hcol; [|by eauto 10].
    destruct (split1_char_dec DELIM (drop 1 data))
      as [[_ ->]|(a & r & -> & Heq & Ha)]; cbn [unpack2]; eauto 10. }
  destruct (split1_char_dec DELIM buf)
    as [[_ ->]|(c0 & rest & -> & Hbuf & Hc0)]; cbn [unpack2]; [done|].
  destruct (split1_cases [DELIM; ":"] rest) as [->|(middle & t & Hsp)].
  - cbn [unpack2]. intros [= -> -> <-]. exists buf, rest. eauto 10.
  - rewrite Hsp. cbn [unpack2]. intros [= -> -> <-]. exists buf, rest.
    apply split1_pair_inv in Hsp. eauto 10.
Qed.

Lemma irc_split_params_nonempty data p cmd ps :
  irc_split data = Ok (p, cmd, ps) -> ps <> [] /\ (DELIM ∉ p).
Proof.
  intros (buf & rest & Hp & _ & _ & Hps)%irc_split_inv. split.
  - destruct Hps as [->|(middle & t & _ & ->)]; [apply split_nonempty|].
    by destruct (split DELIM middle).
  - destruct Hp as [[-> _]|(_ & _ & Hp)]; [apply not_elem_of_nil|done].
Qed.

End SplitFacts.

(** X1. A line without a space is refused: [irc_split] raises
    [ProtocolViolationError] with the line, whether or not the line
    starts with ':'. *)
Theorem irc_split_no_space (data : bytes) :
  DELIM ∉ data -> irc_split data = Raise (ProtocolViolationError data).
Proof.
  intros Hd. unfold irc_split.
  assert (DELIM ∉ drop 1 data) as Hd1.
  { intros Hin. apply Hd. destruct data; [done|]. by apply list_elem_of_further. }
  destruct (startswith data [":"]).
  - rewrite (split1_char_none _ (drop 1 data)) by done. cbn [unpack2].
    by rewrite (split1_char_none _ data).
  - by rewrite (split1_char_none _ data).
Qed.

Lemma irc_split_no_space_witness :
  (DELIM ∉ b "PING")
  /\ irc_split (b "PING") = Raise (ProtocolViolationError (b "PING")).
Proof.
  assert (DELIM ∉ b "PING") as H by compute_done.
  split; [exact H|]. exact (irc_split_no_space (b "PING") H).
Defined.

(** X2. A line that does not start with ':' and holds a space is always
    accepted: the prefix is empty and the command is the text in front of
    the first space. *)
Theorem irc_split_accepts (cmd rest : bytes) :
  startswith cmd [":"] = false -> DELIM ∉ cmd ->
  exists ps, irc_split (cmd ++ DELIM :: rest) = Ok ([], cmd, ps).
Proof.
  intros Hcol Hcmd. unfold irc_split.
  assert (startswith (cmd ++ DELIM :: rest) [":"] = false) as ->
    by (by destruct cmd).
  rewrite split1_char_app by done. cbn [unpack2].
  destruct (unpack2 (split1 [DELIM; ":"] rest)) as [[? ?]|]; by eexists.
Qed.

Lemma irc_split_accepts_witness :
  startswith (b "MODE") [":"] = false
  /\ (DELIM ∉ b "MODE")
  /\ exists ps, irc_split (b "MODE" ++ DELIM :: b "#chan +o bob")
                = Ok ([], b "MODE", ps).
Proof.
  assert (DELIM ∉ b "MODE") as H by compute_done.
  split; [reflexivity|]. split; [exact H|].
  exact (irc_split_accepts (b "MODE") (b "#chan +o bob") eq_refl H).
Defined.

(** X3. Whatever line [irc_split] accepts, the prefix and the command it
    returns hold no space, there is at least one parameter, and every
    parameter but the last holds no space. *)
Theorem irc_split_result_shape (data p cmd : bytes) (ps : list bytes) :
  irc_split data = Ok (p, cmd, ps) ->
  (DELIM ∉ p) /\ (DELIM ∉ cmd)
  /\ exists middle trailing,
       ps = middle ++ [trailing] /\ Forall (fun r => DELIM ∉ r) middle.
Proof.
  intros (buf & rest & Hp & _ & Hcmd & Hps)%irc_split_inv.
  split; [|split; [done|]].
  - destruct Hp as [[-> _]|(_ & _ & Hp)]; [apply not_elem_of_nil|done].
  - destruct Hps as [->|(middle & t & _ & ->)].
    + pose proof (split_pieces_fresh DELIM rest) as Hf.
      pose proof (split_nonempty DELIM rest) as Hne.
      destruct (split DELIM rest) as [|x l] using rev_ind; [done|].
      apply Forall_app in Hf as [Hf _]. by exists l, x.
    + exists (split DELIM middle), t. split; [done|]. apply split_pieces_fresh.
Qed.

Lemma irc_split_result_shape_witness :
  irc_split (b ":srv 001 bob :Welcome to IRC")
  = Ok (b "srv", b "001", [b "bob"; b "Welcome to IRC"])
  /\ (DELIM ∉ b "srv") /\ (DELIM ∉ b "001")
  /\ exists middle trailing,
       [b "bob"; b "Welcome to IRC"] = middle ++ [trailing]
       /\ Forall (fun r => DELIM ∉ r) middle.
Proof.
  split; [reflexivity|].
  exact (irc_split_result_shape (b ":srv 001 bob :Welcome to IRC")
           (b "srv") (b "001") [b "bob"; b "Welcome to IRC"] eq_refl).
Defined.

(** X4. [irc_split] loses no byte of a line that does not start with ':':
    the line is the command, a space, and the parameters joined by
    spaces, with " :" in front of the last parameter when it was taken as
    the trailing one. *)
Theorem irc_split_lossless (data p cmd : bytes) (ps : list bytes) :
  startswith data [":"] = false ->
  irc_split data = Ok (p, cmd, ps) ->
  p = []
  /\ (data = cmd ++ DELIM :: join [DELIM] ps
      \/ exists middle trailing,
           ps = middle ++ [trailing]
           /\ data = cmd ++ DELIM :: join [DELIM] middle
                     ++ DELIM :: ":" :: trailing).
Proof.
  intros Hcol (buf & rest & Hp & -> & _ & Hps)%irc_split_inv.
  destruct Hp as [[-> <-]|(Hcol' & _)]; [|congruence].
  split; [done|].
  destruct Hps as [->|(middle & t & -> & ->)].
  - left. by rewrite join_split.
  - right. exists (split DELIM middle), t. split; [done|].
    by rewrite join_split.
Qed.

Lemma irc_split_lossless_witness :
  startswith (b "PRIVMSG #chan :hello there") [":"] = false
  /\ irc_split (b "PRIVMSG #chan :hello there")
     = Ok ([], b "PRIVMSG", [b "#chan"; b "hello there"])
  /\ [] = @nil ascii
  /\ (b "PRIVMSG #chan :hello there"
      = b "PRIVMSG" ++ DELIM :: join [DELIM] [b "#chan"; b "hello there"]
      \/ exists middle trailing,
           [b "#chan"; b "hello there"] = middle ++ [trailing]
           /\ b "PRIVMSG #chan :hello there"
              = b "PRIVMSG" ++ DELIM :: join [DELIM] middle
                ++ DELIM :: ":" :: trailing).
Proof.
  split; [reflexivity|]. split; [reflexivity|].
  exact (irc_split_lossless (b "PRIVMSG #chan :hello there") []
           (b "PRIVMSG") [b "#chan"; b "hello there"] eq_refl eq_refl).
Defined.

(** X5. A line that starts with ':' gives the text up to the first space
    as prefix; the rest is split as a line without prefix, and here the
    command may itself start with ':'. *)
Theorem irc_split_prefixed (p cmd : bytes) (rs : list bytes) (t : bytes) :
  DELIM ∉ p -> DELIM ∉ cmd -> middle_ok rs ->
  irc_split (":" :: p ++ DELIM :: frame_line cmd rs t)
  = Ok (p, cmd, rs ++ [t]).
Proof.
  intros Hp Hcmd Hrs. unfold irc_split.
  change (startswith (":" :: ?x) [":"]) with (bool_decide (":" = ":") && true).
  rewrite bool_decide_true by done. cbn [andb].
  change (drop 1 (":" :: ?x)) with x.
  rewrite split1_char_app by done. cbn [unpack2].
  pose proof (find_marker_none _ Hrs) as Hfind.
  destruct Hrs as (Hne & Hall & _).
  unfold frame_line. rewrite <- (app_assoc cmd). cbn [app].
  rewrite split1_char_app by done. cbn [unpack2].
  destruct t as [|a t]; cbn [truthy].
  - rewrite app_nil_r. unfold split1 at 1. rewrite Hfind. cbn [unpack2].
    by rewrite split_join_snoc by (done || apply not_elem_of_nil).
  - rewrite <- app_assoc. cbn [app].
    rewrite split1_pair_app by done. cbn [unpack2].
    by rewrite split_join.
Qed.

Lemma irc_split_prefixed_witness :
  (DELIM ∉ b "server!user@host") /\ (DELIM ∉ b "PRIVMSG")
  /\ middle_ok [b "#chan"]
  /\ irc_split (":" :: b "server!user@host"
                ++ DELIM :: frame_line (b "PRIVMSG") [b "#chan"] (b "hello there"))
     = Ok (b "server!user@host", b "PRIVMSG", [b "#chan"] ++ [b "hello there"]).
Proof.
  assert (DELIM ∉ b "server!user@host") as H1 by compute_done.
  assert (DELIM ∉ b "PRIVMSG") as H2 by compute_done.
  assert (middle_ok [b "#chan"]) as H3
    by (repeat split; [discriminate | compute_done | constructor]).
  repeat (split; [assumption|]).
  exact (irc_split_prefixed _ _ _ (b "hello there") H1 H2 H3).
Defined.

(** X6. A message without parameters, [None] or the empty list, encodes
    to the command and one space; decoding that line gives one empty
    parameter instead of none. *)
Theorem encode_decode_no_params (cmd : bytes) :
  command_ok cmd ->
  encode (mkMessage None cmd ParamsNone) = Ok ((cmd ++ [DELIM]) ++ CRLF)
  /\ encode (mkMessage None cmd (ParamsList [])) = Ok ((cmd ++ [DELIM]) ++ CRLF)
  /\ decode (cmd ++ [DELIM]) = Ok (mkMessage (Some []) cmd (ParamsList [[]])).
Proof.
  intros [Hsp Hcol]. repeat split.
  unfold decode, irc_split.
  assert (startswith (cmd ++ [DELIM]) [":"] = false) as -> by (by destruct cmd).
  by rewrite split1_char_app.
Qed.

Lemma encode_decode_no_params_witness :
  command_ok (b "QUIT")
  /\ encode (mkMessage None (b "QUIT") ParamsNone) = Ok ((b "QUIT" ++ [DELIM]) ++ CRLF)
  /\ encode (mkMessage None (b "QUIT") (ParamsList [])) = Ok ((b "QUIT" ++ [DELIM]) ++ CRLF)
  /\ decode (b "QUIT" ++ [DELIM])
     = Ok (mkMessage (Some []) (b "QUIT") (ParamsList [[]])).
Proof.
  assert (command_ok (b "QUIT")) as H by (split; [compute_done | reflexivity]).
  split; [exact H|]. exact (encode_decode_no_params (b "QUIT") H).
Defined.

(** ** Prefix parts *)

(** X7. For every message with a string prefix, [prefix_parts] returns
    without error, the parts put together again give the prefix, the
    sender holds no '!', a user holds no '@', and a user comes with a
    host. *)
Theorem prefix_parts_lossless (m : Message) (p : bytes) :
  prefix m = Some p ->
  exists server_name user host,
    prefix_parts m = Ok (Some server_name, user, host)
    /\ prefix_of_parts (Some server_name, user, host) = p
    /\ ("!" ∉ server_name)
    /\ (forall u, user = Some u -> ("@" ∉ u) /\ host <> None).
Proof.
  intros Hp. unfold prefix_parts. rewrite Hp.
  destruct (contains "!" p) eqn:Hbang.
  - apply contains_elem, (split1_char_elem "!") in Hbang
      as (server_name & userhost & -> & -> & Hs).
    cbn [unpack2]. destruct (contains "@" userhost) eqn:Hat.
    + apply contains_elem, (split1_char_elem "@") in Hat
        as (user & host & -> & -> & Hu).
      cbn [unpack2]. exists server_name, (Some user), (Some host).
      split; [done|]. split; [cbn; by rewrite <- app_assoc|].
      split; [done|]. intros u [= <-]. by split.
    + exists server_name, None, (Some userhost).
      split; [done|]. split; [done|]. split; [done|]. by intros u.
  - apply contains_false in Hbang. exists p, None, None.
    split; [done|]. split; [cbn; by rewrite app_nil_r|].
    split; [done|]. by intros u.
Qed.

Lemma prefix_parts_lossless_witness :
  prefix (mkMessage (Some (b "nick!user@host")) (b "PRIVMSG") ParamsNone)
  = Some (b "nick!user@host")
  /\ prefix_parts (mkMessage (Some (b "nick!user@host")) (b "PRIVMSG") ParamsNone)
     = Ok (Some (b "nick"), Some (b "user"), Some (b "host"))
  /\ exists server_name user host,
       prefix_parts (mkMessage (Some (b "nick!user@host")) (b "PRIVMSG") ParamsNone)
       = Ok (Some server_name, user, host)
       /\ prefix_of_parts (Some server_name, user, host) = b "nick!user@host"
       /\ ("!" ∉ server_name)
       /\ (forall u, user = Some u -> ("@" ∉ u) /\ host <> None).
Proof.
  split; [reflexivity|]. split; [reflexivity|].
  exact (prefix_parts_lossless
           (mkMessage (Some (b "nick!user@host")) (b "PRIVMSG") ParamsNone)
           (b "nick!user@host") eq_refl).
Defined.

(** X8. Whatever line [decode] accepts, the sender of the decoded message
    is read without error and holds neither a space nor a '!'. A message
    built with the default prefix [None] has no sender: reading it raises
    [TypeError]. *)
Theorem decoded_sender_ok (data : bytes) (m : Message) :
  decode data = Ok m ->
  (exists s, sender m = Ok (Some s) /\ (DELIM ∉ s) /\ ("!" ∉ s))
  /\ (forall cmd ps, sender (mkMessage None cmd ps) = Raise (OtherException "TypeError")).
Proof.
  intros Hd. split; [|done].
  unfold decode in Hd.
  destruct (irc_split data) as [[[p c] ps]|e] eqn:E; [|done].
  injection Hd as <-.
  apply irc_split_params_nonempty in E as [_ Hp].
  unfold sender, prefix_parts. cbn [prefix].
  destruct (contains "!" p) eqn:Hbang.
  - apply contains_elem, (split1_char_elem "!") in Hbang
      as (s & userhost & -> & -> & Hs).
    cbn [unpack2]. exists s.
    assert (DELIM ∉ s) as Hsp
      by (intros Hin; apply Hp, elem_of_app; by left).
    destruct (contains "@" userhost) eqn:Hat; [|done].
    apply contains_elem, (split1_char_elem "@") in Hat
      as (user & host & -> & _ & _). done.
  - apply contains_false in Hbang. by exists p.
Qed.

Lemma decoded_sender_ok_witness :
  decode (b ":nick!user@host PRIVMSG #chan :hi")
  = Ok (mkMessage (Some (b "nick!user@host")) (b "PRIVMSG")
          (ParamsList [b "#chan"; b "hi"]))
  /\ sender (mkMessage (Some (b "nick!user@host")) (b "PRIVMSG")
               (ParamsList [b "#chan"; b "hi"])) = Ok (Some (b "nick"))
  /\ exists s,
       sender (mkMessage (Some (b "nick!user@host")) (b "PRIVMSG")
                 (ParamsList [b "#chan"; b "hi"])) = Ok (Some s)
       /\ (DELIM ∉ s) /\ ("!" ∉ s).
Proof.
  split; [reflexivity|]. split; [reflexivity|].
  exact (proj1 (decoded_sender_ok (b ":nick!user@host PRIVMSG #chan :hi") _ eq_refl)).
Defined.

(** ** Commands *)

Lemma startswith_hash_not_colon (s : bytes) :
  startswith s ["#"] = true -> startswith s [":"] = false /\ truthy s = true.
Proof.
  destruct s as [|a s]; [done|]. cbn. rewrite andb_true_r.
  intros <-%bool_decide_eq_true. done.
Qed.

(** X9. [Join] never raises: its check for empty parameters cannot fail,
    for a channel name as for a list of channels and keys, the list being
    empty or not; and the message it builds always encodes, the assertion
    of [irc_unsplit] on a leading ':' never failing, because a channel
    name is given a leading '#' when it has none. *)
Theorem Join_never_raises (channels : join_arg) (pre : option bytes) :
  exists m line,
    Join channels pre = Ok m
    /\ command m = b "JOIN"
    /\ encode m = Ok line.
Proof.
  destruct channels as [s|l]; unfold Join.
  - destruct (startswith s ["#"]) eqn:Hs.
    + destruct (startswith_hash_not_colon s Hs) as [Hcol Htr].
      cbn [params_truthy]. rewrite Htr. cbn [negb].
      eexists _, _. split; [done|]. split; [done|].
      unfold encode, Command, irc_unsplit. cbn [prefix command params].
      by rewrite Hcol.
    + cbn [params_truthy truthy negb].
      eexists _, _. split; [done|]. split; [done|]. done.
  - destruct (fold_left join_step l ([], [])) as [chans keys].
    cbn [params_truthy negb].
    eexists _, _. split; [done|]. split; [done|].
    unfold encode, Command. cbn [prefix command params].
    change [join [","] chans; join [","] keys]
      with ([join [","] chans] ++ [join [","] keys]).
    by rewrite irc_unsplit_list.
Qed.

(** X10. A [PrivMsg] whose target holds no space keeps its text: decoding
    the line it encodes to gives the command PRIVMSG, the target, and the
    text byte for byte, whatever spaces and colons the text holds. *)
Theorem PrivMsg_round_trip (to msg : bytes) :
  DELIM ∉ to ->
  exists line,
    encode (PrivMsg to msg None) = Ok (line ++ CRLF)
    /\ decode line = Ok (mkMessage (Some []) (b "PRIVMSG") (ParamsList [to; msg])).
Proof.
  intros Hto.
  assert (command_ok (b "PRIVMSG")) as Hc by (split; [compute_done|reflexivity]).
  assert (middle_ok [to]) as Hm.
  { split; [done|]. split; [by apply Forall_singleton|constructor]. }
  exists (frame_line (b "PRIVMSG") [to] msg). split.
  - unfold encode, PrivMsg, Command. cbn [prefix command params].
    change [to; msg] with ([to] ++ [msg]).
    by rewrite irc_unsplit_list.
  - unfold decode. by rewrite irc_split_frame_line.
Qed.

Lemma PrivMsg_round_trip_witness :
  (DELIM ∉ b "#chan")
  /\ exists line,
       encode (PrivMsg (b "#chan") (b "see: http://x y") None) = Ok (line ++ CRLF)
       /\ decode line
          = Ok (mkMessage (Some []) (b "PRIVMSG")
                  (ParamsList [b "#chan"; b "see: http://x y"])).
Proof.
  assert (DELIM ∉ b "#chan") as H by compute_done.
  split; [exact H|].
  exact (PrivMsg_round_trip (b "#chan") (b "see: http://x y") H).
Defined.

(** ** More on the quoting layers *)

Lemma quote_tables_plain_byte (c : ascii) :
  c ∉ quoted_bytes ->
  table_get [c] _low_level_quote_table = None
  /\ table_get [c] _ctcp_quote_table = None.
Proof.
  intros (H1 & H2 & H3 & H4 & H5 & H6)%not_quoted_inv.
  split; cbn; repeat case_bool_decide; simplify_eq; done.
Qed.

(** X11. On a string that holds none of the bytes a layer escapes, both
    directions of both layers leave the string as it is, so dequoting
    the quoted string gives the string back. *)
Theorem quote_round_trip_plain (s : bytes) :
  plain s ->
  low_level_quote s = s /\ low_level_dequote (low_level_quote s) = s
  /\ ctcp_quote s = s /\ ctcp_dequote (ctcp_quote s) = s.
Proof.
  intros Hs.
  assert (low_level_quote s = s) as Hq1.
  { apply _quote_id. intros c Hc. by apply quote_tables_plain_byte, (plain_elem s). }
  assert (ctcp_quote s = s) as Hq2.
  { apply _quote_id. intros c Hc. by apply quote_tables_plain_byte, (plain_elem s). }
  rewrite Hq1, Hq2. repeat split.
  - apply (_dequote_id _ _ M_QUOTE); [apply low_level_dequote_table_head|].
    intros Hin. apply (plain_elem s _ Hs) in Hin. revert Hin. compute_done.
  - apply (_dequote_id _ _ X_QUOTE); [apply ctcp_dequote_table_head|].
    intros Hin. apply (plain_elem s _ Hs) in Hin. revert Hin. compute_done.
Qed.

Lemma quote_round_trip_plain_witness :
  plain (b "ACTION waves")
  /\ low_level_quote (b "ACTION waves") = b "ACTION waves"
  /\ low_level_dequote (low_level_quote (b "ACTION waves")) = b "ACTION waves"
  /\ ctcp_quote (b "ACTION waves") = b "ACTION waves"
  /\ ctcp_dequote (ctcp_quote (b "ACTION waves")) = b "ACTION waves".
Proof.
  assert (plain (b "ACTION waves")) as H by (unfold plain; compute_done).
  split; [exact H|]. exact (quote_round_trip_plain (b "ACTION waves") H).
Defined.

(** X12. Dequoting never changes the length of a string, in either layer:
    where it finds an escape sequence of two bytes it writes two bytes,
    the escape byte and the byte the sequence stands for. *)
Theorem dequote_keeps_length (s : bytes) :
  length (low_level_dequote s) = length s
  /\ length (ctcp_dequote s) = length s.
Proof.
  split.
  - apply _dequote_length. intros k v. apply dequote_table_values. by left.
  - apply _dequote_length. intros k v. apply dequote_table_values. by right.
Qed.

Section QuoteSafe.

Context (s : bytes) (t : table) (safe : ascii -> Prop).
Context (Hplain : forall c, table_get [c] t = None -> safe c).
Context (Hvalues : forall k v, table_get k t = Some v -> Forall safe v).

Lemma slice_snoc cursor i c :
  cursor <= i -> s !! i = Some c ->
  slice cursor (S i) s = slice cursor i s ++ [c].
Proof.
  intros Hle Hc. unfold slice.
  replace (S i - cursor) with (S (i - cursor)) by lia.
  apply take_S_r. rewrite lookup_drop.
  by replace (cursor + (i - cursor)) with i by lia.
Qed.

(** The loop of [_quote] from position [i] on, [i] at least 1: what has
    been written and what is pending between [cursor] and [i] is the
    first byte of the string followed by safe bytes. *)
Lemma _quote_fold_safe n :
  forall i cursor buf l,
    0 < i -> cursor <= i ->
    buf ++ slice cursor i s = take 1 s ++ l -> Forall safe l ->
    exists cursor' buf' l',
      fold_left (_quote_step s t) (zip (seq i n) (drop i s)) (cursor, buf)
      = (cursor', buf')
      /\ cursor' <= i + n
      /\ buf' ++ slice cursor' (i + n) s = take 1 s ++ l'
      /\ Forall safe l'.
Proof.
  induction n as [|n IH]; intros i cursor buf l Hi Hc Heq Hl.
  { exists cursor, buf, l. cbn. rewrite Nat.add_0_r. split; [done|].
    split; [lia|]. done. }
  destruct (drop i s) as [|c r] eqn:Hdrop.
  { exists cursor, buf, l. cbn [seq zip_with fold_left]. split; [done|].
    split; [lia|]. split; [|done].
    rewrite <- Heq. f_equal. unfold slice.
    assert (length s <= i) as Hlen.
    { apply (f_equal length) in Hdrop. rewrite length_drop in Hdrop.
      cbn in Hdrop. lia. }
    rewrite !take_ge; [done|rewrite length_drop; lia..]. }
  assert (s !! i = Some c) as Hci.
  { pose proof (lookup_drop s i 0) as H.
    by rewrite Hdrop, Nat.add_0_r in H. }
  assert (drop (S i) s = r) as Hdrop'.
  { replace (S i) with (i + 1) by lia. by rewrite <- drop_drop, Hdrop. }
  cbn [seq zip_with fold_left]. unfold _quote_step at 2.
  rewrite bool_decide_false by lia.
  replace (i + S n) with (S i + n) by lia.
  rewrite <- Hdrop'.
  destruct (table_get [c] t) as [q|] eqn:E.
  - apply (IH (S i) (i + 1) _ (l ++ q)); [lia|lia| |].
    + replace (i + 1) with (S i) by lia.
      assert (slice (S i) (S i) s = []) as ->
        by (unfold slice; by rewrite Nat.sub_diag).
      rewrite app_nil_r, !app_assoc. by rewrite Heq.
    + apply Forall_app. split; [done|]. by eapply Hvalues.
  - apply (IH (S i) cursor buf (l ++ [c])); [lia|lia| |].
    + rewrite (slice_snoc cursor i c), !app_assoc by done. by rewrite Heq.
    + apply Forall_app. split; [done|]. apply Forall_singleton. by apply Hplain.
Qed.

(** [_quote] gives the first byte of the string as it is, followed by
    safe bytes only. *)
Lemma _quote_safe :
  exists l, _quote s t = take 1 s ++ l /\ Forall safe l.
Proof.
  unfold _quote, enumerate.
  destruct s as [|c0 s'] eqn:Hs; [by exists []|]. rewrite <- Hs.
  assert (zip (seq 0 (length s)) s = (0, c0) :: zip (seq 1 (length s')) (drop 1 s))
    as -> by (by rewrite Hs).
  cbn [fold_left]. unfold _quote_step at 2. rewrite bool_decide_true by done.
  destruct (_quote_fold_safe (length s') 1 0 [] []) as (c' & b' & l' & Hf & Hle & Heq & Hl);
    [lia|lia| |done|].
  { cbn. unfold slice. by rewrite drop_0, app_nil_r. }
  unfold bytes in *. rewrite Hf. exists l'. split; [|done].
  rewrite <- Heq. f_equal. unfold slice.
  rewrite take_ge; [done|]. rewrite length_drop, Hs. cbn. lia.
Qed.

End QuoteSafe.

(** X13. Past its first byte, a string that [low_level_quote] returns
    holds no NUL, CR or LF, and a string that [ctcp_quote] returns holds
    no delimiter byte; the first byte is the first byte of the input,
    whatever it is. *)
Theorem quote_escapes_past_first_byte (s : bytes) :
  (exists l, low_level_quote s = take 1 s ++ l
             /\ Forall (fun c => c ∉ [NUL; NL; CR]) l)
  /\ (exists l, ctcp_quote s = take 1 s ++ l
                /\ Forall (fun c => c <> X_DELIM) l).
Proof.
  split.
  - apply _quote_safe.
    + intros c. cbn. repeat case_bool_decide; try done. intros _.
      rewrite !not_elem_of_cons. repeat split; try congruence.
      apply not_elem_of_nil.
    + intros k v. cbn. repeat case_bool_decide; intros [= <-];
        repeat constructor; compute_done.
  - apply _quote_safe.
    + intros c. cbn. repeat case_bool_decide; try done. congruence.
    + intros k v. cbn. repeat case_bool_decide; intros [= <-];
        repeat constructor; compute_done.
Qed.

(** ** More on the extended-message codec *)

Section CtcpMore.

Implicit Types (s p cmd : bytes) (ps : list bytes)
  (x : bytes * option bytes) (xs : list (bytes * option bytes)).

Lemma tokens_middle_ok ps :
  ps <> [] -> Forall token_ok ps ->
  Forall (fun p => startswith p [":"] = false) (tail ps) ->
  middle_ok ps.
Proof.
  intros Hne Hps Hcol. split; [done|]. split; [|done].
  eapply Forall_impl; [done|]. by intros p (_ & ? & _).
Qed.

(** The line [CTCPMessage.encode] writes for well-formed plain tokens and
    extended messages. *)
Lemma ctcp_encode_line cmd ps xs :
  ps <> [] -> Forall extended_ok xs ->
  ctcp_encode (mkCTCPMessage None cmd ps (map to_ctcp_param xs))
  = Ok (frame_line cmd ps (ctcp_wrap xs) ++ CRLF).
Proof.
  intros Hne Hxs. unfold ctcp_encode.
  cbn [ctcp_prefix ctcp_command ctcp_plain ctcp_params].
  rewrite (ctcp_encode_fold [] xs) by done. cbn [app].
  rewrite low_level_quote_wrap by done.
  by rewrite irc_unsplit_list.
Qed.

(** What [CTCPMessage.decode] reads from that line. *)
Lemma ctcp_decode_line cmd ps xs :
  command_ok cmd -> ps <> [] -> Forall token_ok ps ->
  Forall (fun p => startswith p [":"] = false) (tail ps) ->
  Forall extended_ok xs ->
  ctcp_decode (frame_line cmd ps (ctcp_wrap xs))
  = Ok (mkCTCPMessage (Some []) cmd ps (map to_ctcp_param xs)).
Proof.
  intros Hcmd Hne Hps Hcol Hxs.
  pose proof (tokens_middle_ok ps Hne Hps Hcol) as Hmid.
  unfold ctcp_decode. rewrite irc_split_frame_line by done.
  destruct (ps ++ [ctcp_wrap xs]) as [|p0 ps0] eqn:E;
    [by destruct ps|]. rewrite <- E. clear E p0 ps0.
  rewrite join_snoc by done.
  assert (M_QUOTE ∉ join [DELIM] ps ++ [DELIM] ++ ctcp_wrap xs) as HM.
  { rewrite app_assoc. intros Hin. apply elem_of_app in Hin as [Hin|Hin].
    - revert Hin. apply join_tokens_free; [done|].
      eapply Forall_impl; [done|]. by intros p (_ & _ & _ & ?).
    - by apply ctcp_wrap_no_M_QUOTE in Hin. }
  unfold low_level_dequote.
  rewrite (_dequote_id _ _ M_QUOTE)
    by (done || apply low_level_dequote_table_head).
  rewrite app_assoc, split_wrap; [|apply join_tokens_free|]; try done.
  - cbn [fold_left]. rewrite (ctcp_decode_step_tokens [] []) by done.
    by rewrite ctcp_decode_fold.
  - eapply Forall_impl; [done|]. by intros p (_ & _ & ? & _).
Qed.

(** A property of the state of the decode loop that every step keeps is
    kept by the loop. *)
Lemma ctcp_decode_fold_inv
    (I : bool * list (bytes * ctcp_data) * list bytes -> Prop)
    (P : bytes -> Prop) (messages : list bytes) st :
  (forall st message, I st -> P message -> I (ctcp_decode_step st message)) ->
  Forall P messages -> I st ->
  I (fold_left ctcp_decode_step messages st).
Proof.
  intros Hstep. revert st.
  induction messages as [|message messages IH]; intros st Hall Hst; [done|].
  apply Forall_cons in Hall as [Hm Hall]. cbn [fold_left].
  apply IH; [done|]. by apply Hstep.
Qed.

End CtcpMore.

(** X14. [Me] round trip: for a target that is a well-formed plain token
    and a non-empty action text without escaped bytes, decoding the line
    that [Me(to, action)] encodes to gives the target as the only plain
    token and the one extended message ACTION with the text, spaces
    included. *)
Theorem Me_round_trip (to action : bytes) :
  token_ok to -> plain action -> action <> [] ->
  exists line,
    ctcp_encode (Me to (DataStr action) None) = Ok (line ++ CRLF)
    /\ ctcp_decode line
       = Ok (mkCTCPMessage (Some []) (b "PRIVMSG") [to]
               [(b "ACTION", DataStr action)]).
Proof.
  intros Hto Hact Hne.
  assert (Forall extended_ok [(b "ACTION", Some action)]) as Hxs.
  { apply Forall_singleton. unfold extended_ok, plain. cbn [fst snd].
    split; [compute_done|]. split; [compute_done|]. done. }
  exists (frame_line (b "PRIVMSG") [to] (ctcp_wrap [(b "ACTION", Some action)])).
  split.
  - by apply (ctcp_encode_line (b "PRIVMSG") [to] [(b "ACTION", Some action)]).
  - assert (command_ok (b "PRIVMSG")) as Hc by (split; [compute_done|reflexivity]).
    assert (Forall token_ok [to]) as Hps by (by apply Forall_singleton).
    assert (Forall (fun p => startswith p [":"] = false) (tail [to])) as Hcol
      by constructor.
    by apply (ctcp_decode_line (b "PRIVMSG") [to] [(b "ACTION", Some action)]).
Qed.

Lemma Me_round_trip_witness :
  token_ok (b "#chan") /\ plain (b "waves at bob") /\ b "waves at bob" <> []
  /\ exists line,
       ctcp_encode (Me (b "#chan") (DataStr (b "waves at bob")) None)
       = Ok (line ++ CRLF)
       /\ ctcp_decode line
          = Ok (mkCTCPMessage (Some []) (b "PRIVMSG") [b "#chan"]
                  [(b "ACTION", DataStr (b "waves at bob"))]).
Proof.
  assert (token_ok (b "#chan")) as H1
    by (repeat split; (discriminate || compute_done)).
  assert (plain (b "waves at bob")) as H2 by (unfold plain; compute_done).
  assert (b "waves at bob" <> []) as H3 by discriminate.
  repeat (split; [assumption|]).
  exact (Me_round_trip (b "#chan") (b "waves at bob") H1 H2 H3).
Defined.

(** X15. Whatever line [CTCPMessage.decode] accepts, every plain token it
    returns is non-empty and holds neither a space nor the delimiter
    byte, and no tag of an extended message holds a space. *)
Theorem ctcp_decode_result_shape (data : bytes) (m : CTCPMessage) :
  ctcp_decode data = Ok m ->
  Forall (fun t => t <> [] /\ (DELIM ∉ t) /\ (X_DELIM ∉ t)) (ctcp_plain m)
  /\ Forall (fun x => DELIM ∉ fst x) (ctcp_params m).
Proof.
  unfold ctcp_decode.
  destruct (irc_split data) as [[[p c] ps]|e]; [|done].
  destruct ps as [|p0 ps]; [by intros [= <-]|].
  set (messages := split X_DELIM _).
  pose proof (ctcp_decode_fold_inv
    (fun st => Forall (fun t => t <> [] /\ (DELIM ∉ t) /\ (X_DELIM ∉ t)) (snd st)
               /\ Forall (fun x => DELIM ∉ fst x) (snd (fst st)))
    (fun message => X_DELIM ∉ message) messages (false, [], [])) as Hinv.
  destruct (fold_left ctcp_decode_step messages (false, [], []))
    as [[odd ext] normal].
  intros [= <-]. cbn [ctcp_plain ctcp_params]. apply Hinv.
  - clear. intros [[odd ext] normal] message [Hn He] Hm.
    cbn [fst snd] in *. unfold ctcp_decode_step.
    destruct odd, (truthy message); cbn [fst snd negb]; try done.
    + split; [done|]. apply Forall_app. split; [done|].
      apply Forall_singleton. cbn [fst].
      destruct (split1_char_dec DELIM (ctcp_dequote message))
        as [[Hf ->]|(a & r & -> & _ & Ha)]; done.
    + split; [|done]. apply Forall_app. split; [done|].
      apply Forall_forall. intros t [Ht Hin]%list_elem_of_filter.
      split; [by destruct t|]. split.
      * pose proof (split_pieces_fresh DELIM message) as Hf.
        by eapply Forall_forall in Hf.
      * intros Hx. apply Hm. by eapply split_pieces_bytes.
  - apply split_pieces_fresh.
  - by split.
Qed.

Lemma ctcp_decode_result_shape_witness :
  ctcp_decode (b "PRIVMSG bob :hi  there " ++ [X_DELIM] ++ b "PING 1 2" ++ [X_DELIM])
  = Ok (mkCTCPMessage (Some []) (b "PRIVMSG") [b "bob"; b "hi"; b "there"]
          [(b "PING", DataStr (b "1 2"))])
  /\ Forall (fun t => t <> [] /\ (DELIM ∉ t) /\ (X_DELIM ∉ t))
       [b "bob"; b "hi"; b "there"]
  /\ Forall (fun x : bytes * ctcp_data => DELIM ∉ fst x)
       [(b "PING", DataStr (b "1 2"))].
Proof.
  split; [reflexivity|].
  exact (ctcp_decode_result_shape
           (b "PRIVMSG bob :hi  there " ++ [X_DELIM] ++ b "PING 1 2" ++ [X_DELIM])
           _ eq_refl).
Defined.

(** X16. A line whose parameters hold neither the delimiter byte nor the
    transport escape byte carries no extended message: decoding gives the
    words of all its parameters, cut at the spaces, as plain tokens. *)
Theorem ctcp_decode_plain_text (data p cmd : bytes) (ps : list bytes) :
  irc_split data = Ok (p, cmd, ps) ->
  X_DELIM ∉ join [DELIM] ps ->
  M_QUOTE ∉ join [DELIM] ps ->
  ctcp_decode data
  = Ok (mkCTCPMessage (Some p) cmd
          (filter (fun t => truthy t = true) (split DELIM (join [DELIM] ps))) []).
Proof.
  intros Hsplit HX HM. unfold ctcp_decode. rewrite Hsplit.
  destruct (irc_split_params_nonempty _ _ _ _ Hsplit) as [Hne _].
  destruct ps as [|p0 ps0]; [done|].
  unfold low_level_dequote.
  rewrite (_dequote_id _ _ M_QUOTE)
    by (done || apply low_level_dequote_table_head).
  rewrite (split_fresh X_DELIM) by done.
  cbn [fold_left]. unfold ctcp_decode_step.
  destruct (join [DELIM] (p0 :: ps0)) as [|a s] eqn:Ej; [done|].
  done.
Qed.

Lemma ctcp_decode_plain_text_witness :
  irc_split (b "PRIVMSG #chan :hello  there")
  = Ok ([], b "PRIVMSG", [b "#chan"; b "hello  there"])
  /\ (X_DELIM ∉ join [DELIM] [b "#chan"; b "hello  there"])
  /\ (M_QUOTE ∉ join [DELIM] [b "#chan"; b "hello  there"])
  /\ ctcp_decode (b "PRIVMSG #chan :hello  there")
     = Ok (mkCTCPMessage (Some []) (b "PRIVMSG")
             [b "#chan"; b "hello"; b "there"] []).
Proof.
  assert (X_DELIM ∉ join [DELIM] [b "#chan"; b "hello  there"]) as H1 by compute_done.
  assert (M_QUOTE ∉ join [DELIM] [b "#chan"; b "hello  there"]) as H2 by compute_done.
  split; [reflexivity|]. split; [exact H1|]. split; [exact H2|].
  exact (ctcp_decode_plain_text (b "PRIVMSG #chan :hello  there") []
           (b "PRIVMSG") [b "#chan"; b "hello  there"] eq_refl H1 H2).
Defined.

(** ** More on the nick slots *)

Lemma nick_in_use_stable_raises_witness :
  py_truthy (_new_nick (init (b "alice") ∅)) = false
  /\ _nick (init (b "alice") ∅) = Some (b "alice")
  /\ nick_in_use pyval mret mret send_nick (mret tt) id None
       [b "alice"] (init (b "alice") ∅)
     = (Raise (AttributeError "'Client' object has no attribute 'increment_nick'"),
        init (b "alice") ∅).
Proof.
  split; [reflexivity|]. split; [reflexivity|].
  exact (nick_in_use_stable_raises pyval mret mret send_nick (mret tt) id
           (b "alice") [] (init (b "alice") ∅) eq_refl eq_refl eq_refl).
Defined.

Lemma nick_in_use_other_nick_ignored_witness :
  Some (b "carol")
  <> (if py_truthy (_new_nick (set__new_nick (Some (b "bob")) (init (b "alice") ∅)))
      then _new_nick (set__new_nick (Some (b "bob")) (init (b "alice") ∅))
      else _nick (set__new_nick (Some (b "bob")) (init (b "alice") ∅)))
  /\ nick_in_use pyval mret mret send_nick (mret tt) id None
       [b "carol"] (set__new_nick (Some (b "bob")) (init (b "alice") ∅))
     = (Ok tt, set__new_nick (Some (b "bob")) (init (b "alice") ∅)).
Proof.
  assert (Some (b "carol")
          <> (if py_truthy (_new_nick (set__new_nick (Some (b "bob")) (init (b "alice") ∅)))
              then _new_nick (set__new_nick (Some (b "bob")) (init (b "alice") ∅))
              else _nick (set__new_nick (Some (b "bob")) (init (b "alice") ∅))))
    as H by discriminate.
  split; [exact H|].
  exact (nick_in_use_other_nick_ignored pyval mret mret send_nick (mret tt) id
           None (b "carol") []
           (set__new_nick (Some (b "bob")) (init (b "alice") ∅)) H).
Defined.

(** X19. A forced nick change from a sender that matches the client's
    own identity keeps the identity check working: the handler returns
    without error, the new nickname matches afterwards, and one of the
    two slots is left as it was. *)
Theorem forced_nick_change_keeps_match (sender nickname : pyval) (c : client) :
  matches_nick sender c = true ->
  fst (forced_nick_change sender nickname c) = Ok tt
  /\ matches_nick nickname (snd (forced_nick_change sender nickname c)) = true
  /\ (_nick (snd (forced_nick_change sender nickname c)) = _nick c
      \/ _new_nick (snd (forced_nick_change sender nickname c)) = _new_nick c).
Proof.
  unfold matches_nick, forced_nick_change, mbind, M_bind, get, modify.
  intros [H|H]%orb_true_iff; apply bool_decide_eq_true in H.
  - destruct (bool_decide (sender = _new_nick c)) eqn:E; cbn.
    + split; [done|]. rewrite (bool_decide_true (nickname = nickname)) by done.
      split; [apply orb_true_r|by left].
    + rewrite (bool_decide_true (sender = _nick c)) by done. cbn.
      rewrite (bool_decide_true (nickname = nickname)) by done.
      split; [done|]. split; [done|by right].
  - rewrite (bool_decide_true (sender = _new_nick c)) by done. cbn.
    split; [done|]. rewrite (bool_decide_true (nickname = nickname)) by done.
    split; [apply orb_true_r|by left].
Qed.

Lemma forced_nick_change_keeps_match_witness :
  matches_nick (Some (b "bob")) (set__new_nick (Some (b "bob")) (init (b "alice") ∅)) = true
  /\ _new_nick (snd (forced_nick_change (Some (b "bob")) (Some (b "bob_"))
                       (set__new_nick (Some (b "bob")) (init (b "alice") ∅))))
     = Some (b "bob_")
  /\ matches_nick (Some (b "bob_"))
       (snd (forced_nick_change (Some (b "bob")) (Some (b "bob_"))
               (set__new_nick (Some (b "bob")) (init (b "alice") ∅)))) = true.
Proof.
  split; [reflexivity|]. split; [reflexivity|].
  exact (proj1 (proj2 (forced_nick_change_keeps_match (Some (b "bob")) (Some (b "bob_"))
           (set__new_nick (Some (b "bob")) (init (b "alice") ∅)) eq_refl))).
Defined.

(** ** More on shutdown *)

Section StopMore.

Context (handler : nat -> M unit).

Implicit Types (c : client).

Lemma foldr_unregister_all_frame (hs : list nat) c :
  _nick (foldr unregister_all c hs) = _nick c
  /\ _new_nick (foldr unregister_all c hs) = _new_nick c
  /\ _group (foldr unregister_all c hs) = _group c
  /\ stop_handlers (foldr unregister_all c hs) = stop_handlers c
  /\ _channels (foldr unregister_all c hs) = _channels c
  /\ _users (foldr unregister_all c hs) = _users c.
Proof.
  induction hs as [|h hs (H1 & H2 & H3 & H4 & H5 & H6)]; [done|].
  cbn. by rewrite H1, H2, H3, H4, H5, H6.
Qed.

(** The first [stop], when the handlers leave the flag and the set alone
    and none raises, runs the whole of [_stop]: it ends with the clean-up
    of a client that is stopped and has the stop handlers it had. *)
Lemma stop_all_return g c :
  keeps_shutdown_state handler ->
  stopped c = false ->
  (forall f c', f ∈ stop_handlers c -> fst (handler f c') = Ok tt) ->
  exists c2,
    snd (stop handler g c) = post_stop c2
    /\ stopped c2 = true /\ stop_handlers c2 = stop_handlers c.
Proof.
  intros Hkeep Hs Hok. rewrite stop_unfold by done.
  set (c1 := kill_group (set_stopped true c)).
  destruct (call_stop_handlers_spec handler 0 (size (stop_handlers c)) c1 Hkeep eq_refl)
    as (called & skipped & _ & _ & Hst & Hset & Hall).
  destruct (Hall Hok) as [_ Hfst].
  destruct (call_stop_handlers handler 0 (size (stop_handlers c)) c1)
    as [[[]|e] c2]; cbn [fst snd] in *; [|done].
  by exists c2.
Qed.

End StopMore.

(** X20. After the first [stop] of a client whose stop handlers leave the
    flag [stopped] and the set of stop handlers as they find them, and
    none of which raises, the client is stopped, both queues are dropped,
    every channel and every user in the registries has lost its reference
    to the client, and the set of stop handlers is as before. *)
Theorem stop_cleans_up (handler : nat -> M unit) (g : nat) (c : client) :
  keeps_shutdown_state handler ->
  stopped c = false ->
  (forall f c', f ∈ stop_handlers c -> fst (handler f c') = Ok tt) ->
  stopped (snd (stop handler g c)) = true
  /\ _send_queue (snd (stop handler g c)) = None
  /\ _recv_queue (snd (stop handler g c)) = None
  /\ (forall name v, _channels (snd (stop handler g c)) !! name = Some v -> v = false)
  /\ (forall name v, _users (snd (stop handler g c)) !! name = Some v -> v = false)
  /\ stop_handlers (snd (stop handler g c)) = stop_handlers c.
Proof.
  intros Hkeep Hs Hok.
  destruct (stop_all_return handler g c Hkeep Hs Hok) as (c2 & -> & Hst & Hset).
  rewrite post_stop_stopped.
  unfold post_stop. cbn [_send_queue _recv_queue _channels _users stop_handlers].
  match goal with |- context [foldr unregister_all ?c0 ?hs] =>
    destruct (foldr_unregister_all_frame hs c0) as (_ & _ & _ & H4 & H5 & H6) end.
  rewrite H4, H5, H6. cbn [_channels _users stop_handlers].
  split; [done|]. split; [done|]. split; [done|].
  split; [|split; [|done]]; intros name v; rewrite lookup_fmap;
    by intros (w & _ & ->)%fmap_Some.
Qed.

Lemma stop_cleans_up_witness :
  keeps_shutdown_state all_say_bye
  /\ stopped (Channel (b "#chan") (init (b "alice") {[1; 2]})) = false
  /\ _channels (snd (stop all_say_bye 0 (Channel (b "#chan") (init (b "alice") {[1; 2]}))))
       !! b "#chan" = Some false
  /\ _send_queue (snd (stop all_say_bye 0 (Channel (b "#chan") (init (b "alice") {[1; 2]}))))
     = None.
Proof.
  assert (keeps_shutdown_state all_say_bye) as Hkeep by done.
  split; [exact Hkeep|]. split; [reflexivity|].
  pose proof (stop_cleans_up all_say_bye 0 (Channel (b "#chan") (init (b "alice") {[1; 2]}))
                Hkeep eq_refl (fun _ _ _ => eq_refl)) as (_ & Hq & _ & Hch & _).
  split; [|exact Hq].
  destruct (_channels (snd (stop all_say_bye 0
              (Channel (b "#chan") (init (b "alice") {[1; 2]})))) !! b "#chan")
    as [v|] eqn:E; [|by vm_compute in E].
  by rewrite (Hch _ _ E).
Defined.

(** ** Channels *)

(** X22. A channel name that [normalize_channel] returns starts with one
    of the characters of CHANTYPES, and normalizing it again changes
    nothing. *)
Theorem normalize_channel_idempotent (CHANTYPES name n : bytes) :
  normalize_channel CHANTYPES name = Ok n ->
  (exists c rest, n = c :: rest /\ c ∈ CHANTYPES)
  /\ normalize_channel CHANTYPES n = Ok n.
Proof.
  unfold normalize_channel. destruct name as [|c rest]; [done|].
  destruct (contains c CHANTYPES) eqn:Hc.
  - intros [= <-]. rewrite Hc. split; [|done].
    exists c, rest. split; [done|]. by apply contains_elem.
  - destruct CHANTYPES as [|p T]; [done|]. intros [= <-].
    assert (contains p (p :: T) = true) as Hp
      by (apply contains_elem, list_elem_of_here).
    rewrite Hp. split; [|done]. exists p, (c :: rest). split; [done|].
    apply list_elem_of_here.
Qed.

Lemma normalize_channel_idempotent_witness :
  normalize_channel (b "#&") (b "chan") = Ok (b "#chan")
  /\ (exists c rest, b "#chan" = c :: rest /\ c ∈ b "#&")
  /\ normalize_channel (b "#&") (b "#chan") = Ok (b "#chan").
Proof.
  split; [reflexivity|].
  exact (normalize_channel_idempotent (b "#&") (b "chan") (b "#chan") eq_refl).
Defined.

(** X23. [channel] on a name that normalizes to [n] returns [n] and leaves
    [n] registered; the channels under other names are untouched; a
    channel that was registered before is left as it was; and a second
    call changes nothing. *)
Theorem channel_registers_once (CHANTYPES name n : bytes) (c : client) :
  normalize_channel CHANTYPES name = Ok n ->
  fst (channel CHANTYPES name c) = Ok n
  /\ is_Some (_channels (snd (channel CHANTYPES name c)) !! n)
  /\ (forall other, other <> n ->
        _channels (snd (channel CHANTYPES name c)) !! other
        = _channels c !! other)
  /\ (is_Some (_channels c !! n) -> snd (channel CHANTYPES name c) = c)
  /\ channel CHANTYPES name (snd (channel CHANTYPES name c))
     = channel CHANTYPES name c.
Proof.
  intros Hn. unfold channel. rewrite Hn.
  destruct (_channels c !! n) as [v|] eqn:E.
  - rewrite bool_decide_false by done. rewrite E. cbn [fst snd].
    rewrite E, bool_decide_false by done. rewrite E.
    repeat split; done.
  - rewrite bool_decide_true by done.
    assert (_channels (Channel n c) !! n = Some true) as Hreg
      by apply lookup_insert_eq.
    rewrite Hreg. cbn [fst snd].
    rewrite Hreg, bool_decide_false by done. rewrite Hreg.
    split; [done|]. split; [done|]. split; [|split; [by intros [? ?]|done]].
    intros other Hne. by apply lookup_insert_ne.
Qed.

Lemma channel_registers_once_witness :
  normalize_channel (b "#&") (b "chan") = Ok (b "#chan")
  /\ fst (channel (b "#&") (b "chan") (init (b "alice") ∅)) = Ok (b "#chan")
  /\ is_Some (_channels (snd (channel (b "#&") (b "chan") (init (b "alice") ∅)))
                !! b "#chan").
Proof.
  split; [reflexivity|].
  pose proof (channel_registers_once (b "#&") (b "chan") (b "#chan")
                (init (b "alice") ∅) eq_refl) as (H1 & H2 & _).
  split; [exact H1|exact H2].
Defined.

(** ** The receive loop *)

Section SplitPairFacts.

Context (d c : ascii).

Implicit Types (s : bytes).

Lemma bytes_ind2 (P : bytes -> Prop) :
  P [] -> (forall a, P [a]) ->
  (forall a a' s, P s -> P (a' :: s) -> P (a :: a' :: s)) ->
  forall s, P s.
Proof.
  intros H0 H1 H2 s.
  enough (P s /\ forall a, P (a :: s)) by tauto.
  induction s as [|a s [IH1 IH2]]; [by split|].
  split; [apply IH2|]. intros a0. by apply H2.
Qed.

Lemma split_pair_unfold a a' s :
  split_pair d c (a :: a' :: s)
  = if bool_decide (a = d) && bool_decide (a' = c)
    then [] :: split_pair d c s
    else match split_pair d c (a' :: s) with
         | p :: ps => (a :: p) :: ps
         | [] => [[a]]
         end.
Proof. reflexivity. Qed.

Lemma split_pair_nonempty s : split_pair d c s <> [].
Proof.
  destruct s as [|a [|a' s]]; [done..|]. rewrite split_pair_unfold.
  destruct (bool_decide (a = d) && bool_decide (a' = c)); [done|].
  by destruct (split_pair d c (a' :: s)).
Qed.

Lemma split_pair_cons2 a a' s :
  split_pair d c (a :: a' :: s)
  = if bool_decide (a = d) && bool_decide (a' = c)
    then [] :: split_pair d c s
    else (a :: default [] (head (split_pair d c (a' :: s))))
         :: tail (split_pair d c (a' :: s)).
Proof.
  rewrite split_pair_unfold.
  destruct (bool_decide (a = d) && bool_decide (a' = c)); [done|].
  pose proof (split_pair_nonempty (a' :: s)) as Hne.
  by destruct (split_pair d c (a' :: s)).
Qed.

(** Joining the pieces with the separator gives the string. *)
Lemma join_split_pair s : join [d; c] (split_pair d c s) = s.
Proof.
  induction s as [| a | a a' s IH1 IH2] using bytes_ind2; [done..|].
  rewrite split_pair_cons2.
  destruct (bool_decide (a = d) && bool_decide (a' = c)) eqn:E.
  - apply andb_prop in E as [->%bool_decide_eq_true ->%bool_decide_eq_true].
    pose proof (split_pair_nonempty s) as Hne.
    destruct (split_pair d c s) as [|p ps]; [done|].
    rewrite join_cons_cons. by rewrite IH1.
  - pose proof (split_pair_nonempty (a' :: s)) as Hne.
    destruct (split_pair d c (a' :: s)) as [|p ps]; [done|].
    cbn [head tail default]. destruct ps as [|q qs].
    + cbn in *. by rewrite IH2.
    + rewrite join_cons_cons. rewrite join_cons_cons in IH2. by rewrite <- IH2.
Qed.

Lemma split_pair_single s h : split_pair d c s = [h] -> h = s.
Proof. intros H. pose proof (join_split_pair s) as Hj. by rewrite H in Hj. Qed.

Lemma removelast_cons_ne {A} (x : A) (l : list A) :
  l <> [] -> removelast (x :: l) = x :: removelast l.
Proof. by destruct l. Qed.

Lemma last_cons_ne {A} (x : A) (l : list A) :
  l <> [] -> last (x :: l) = last l.
Proof. by destruct l. Qed.

(** Splitting [s1 ++ s2]: the complete pieces of [s1], then the split of
    the last piece of [s1] followed by [s2]. *)
Lemma split_pair_app s1 s2 :
  split_pair d c (s1 ++ s2)
  = removelast (split_pair d c s1)
    ++ split_pair d c (default [] (last (split_pair d c s1)) ++ s2).
Proof.
  induction s1 as [| a | a a' s IH1 IH2] using bytes_ind2; [done..|].
  cbn [app]. rewrite !split_pair_cons2.
  destruct (bool_decide (a = d) && bool_decide (a' = c)) eqn:E.
  - pose proof (split_pair_nonempty s) as Hne.
    rewrite removelast_cons_ne, last_cons_ne by done.
    cbn [app]. by rewrite IH1.
  - pose proof (split_pair_nonempty (a' :: s)) as Hne.
    destruct (split_pair d c (a' :: s)) as [|p ps] eqn:Ep; [done|].
    cbn [head tail default]. destruct ps as [|q qs].
    + apply split_pair_single in Ep as ->.
      transitivity (split_pair d c (a :: a' :: (s ++ s2))); [|reflexivity].
      by rewrite (split_pair_cons2 a a' (s ++ s2)), E.
    + cbn [app] in IH2. rewrite IH2.
      rewrite (removelast_cons_ne p), (last_cons_ne p) by done.
      rewrite (removelast_cons_ne (a :: p)), (last_cons_ne (a :: p)) by done.
      done.
Qed.

(** The last piece of a split holds no separator. *)
Lemma split_pair_last s :
  split_pair d c (default [] (last (split_pair d c s)))
  = [default [] (last (split_pair d c s))].
Proof.
  pose proof (split_pair_app s []) as H. rewrite !app_nil_r in H.
  pose proof (split_pair_nonempty s) as Hne.
  destruct (split_pair d c s) as [|x l] using rev_ind; [done|].
  rewrite removelast_last, last_snoc in *. cbn [default] in *.
  by apply app_inv_head in H.
Qed.

Lemma split_pair_head_cons a s p ps :
  split_pair d c (a :: s) = p :: ps -> p = [] \/ exists q, p = a :: q.
Proof.
  destruct s as [|a' s]; [intros [= <- _]; right; by eexists|].
  rewrite split_pair_unfold.
  destruct (bool_decide (a = d) && bool_decide (a' = c)).
  - intros [= <- _]. by left.
  - destruct (split_pair d c (a' :: s)); intros [= <- _]; right; by eexists.
Qed.

(** A piece of a split, split again, is one piece. *)
Lemma split_pair_pieces_single s :
  Forall (fun p => split_pair d c p = [p]) (split_pair d c s).
Proof.
  induction s as [| a | a a' s IH1 IH2] using bytes_ind2;
    [by repeat constructor..|].
  rewrite split_pair_unfold.
  destruct (bool_decide (a = d) && bool_decide (a' = c)) eqn:E.
  - by constructor.
  - destruct (split_pair d c (a' :: s)) as [|p ps] eqn:Ep;
      [by repeat constructor|].
    apply Forall_cons in IH2 as [Hp Hps]. constructor; [|done].
    destruct (split_pair_head_cons _ _ _ _ Ep) as [->|[q ->]]; [done|].
    by rewrite split_pair_unfold, E, Hp.
Qed.

(** A string that splits into itself holds no separator. *)
Lemma split_pair_single_find s :
  split_pair d c s = [s] -> find [d; c] s = None.
Proof.
  induction s as [| a | a a' s IH1 IH2] using bytes_ind2.
  - done.
  - intros _. cbn. by rewrite andb_false_r.
  - rewrite split_pair_unfold, find_cons.
    change (startswith (a :: a' :: s) [d; c])
      with (bool_decide (d = a) && (bool_decide (c = a') && true)).
    rewrite andb_true_r.
    rewrite (bool_decide_ext (d = a) (a = d)), (bool_decide_ext (c = a') (a' = c))
      by (split; congruence).
    destruct (bool_decide (a = d) && bool_decide (a' = c)) eqn:E.
    + pose proof (split_pair_nonempty s). by intros [= _ ?].
    + pose proof (split_pair_nonempty (a' :: s)) as Hne.
      destruct (split_pair d c (a' :: s)) as [|p ps] eqn:Ep; [done|].
      intros [= -> ->]. by rewrite IH2.
Qed.

End SplitPairFacts.

(** X24. One pass of the receive loop loses no byte and cuts at every CR
    LF: the lines it hands on and the new [partial], joined by CR LF, are
    the old [partial] followed by the data, and neither a line nor the
    new [partial] holds CR LF. *)
Theorem recv_lines_spec (partial data : bytes) :
  join CRLF (fst (recv_lines partial data) ++ [snd (recv_lines partial data)])
  = partial ++ data
  /\ Forall (fun line => find CRLF line = None)
       (fst (recv_lines partial data) ++ [snd (recv_lines partial data)]).
Proof.
  unfold recv_lines. cbn [fst snd].
  pose proof (split_pair_nonempty CR NL (partial ++ data)) as Hne.
  pose proof (join_split_pair CR NL (partial ++ data)) as Hjoin.
  pose proof (split_pair_pieces_single CR NL (partial ++ data)) as Hsingle.
  destruct (split_pair CR NL (partial ++ data)) as [|x l] using rev_ind; [done|].
  rewrite removelast_last, last_snoc. cbn [default].
  split; [done|].
  eapply Forall_impl; [done|]. intros p Hp. by apply split_pair_single_find.
Qed.

Section RecvLoopFacts.

Context (_process : bytes -> M unit).

Lemma process_lines_app (l1 l2 : list bytes) (c : client) :
  process_lines _process (l1 ++ l2) c
  = match process_lines _process l1 c with
    | (Ok _, c1) => process_lines _process l2 c1
    | (Raise e, c1) => (Raise e, c1)
    end.
Proof.
  revert c. induction l1 as [|l l1 IH]; intros c; [done|].
  cbn [app process_lines]. unfold mbind, M_bind.
  destruct (_process l c) as [[[]|e] c1]; [apply IH|done].
Qed.

(** The loop from a [partial] without CR LF, over calls of [recv] that
    return data or are interrupted. *)
Lemma recv_loop_lines_from (recvs : list recv_result) (partial : bytes) (c : client) :
  Forall recv_goes_on recvs ->
  split_pair CR NL partial = [partial] ->
  match process_lines _process
          (removelast (split_pair CR NL (partial ++ concat (recv_chunks recvs)))) c with
  | (Ok _, c') =>
      recv_loop _process recvs partial c
      = (LoopBlocked
           (default [] (last (split_pair CR NL (partial ++ concat (recv_chunks recvs))))),
         c')
  | (Raise e, c') =>
      exists p, recv_loop _process recvs partial c = (LoopRaised e p, c')
  end.
Proof.
  intros Hall. revert partial c.
  induction Hall as [|r recvs Hr Hall IH]; intros partial c Hpartial.
  - cbn. rewrite app_nil_r, Hpartial. done.
  - destruct r as [data| |e]; [|by apply IH|done].
    cbn [recv_chunks omap list_omap concat recv_loop] in *.
    fold (recv_chunks recvs).
    destruct data as [|a data]; [done|]. cbn [truthy].
    rewrite app_assoc.
    set (s1 := partial ++ a :: data).
    rewrite (split_pair_app CR NL s1).
    unfold recv_lines. fold s1.
    pose proof (split_pair_nonempty CR NL
      (default [] (last (split_pair CR NL s1)) ++ concat (recv_chunks recvs))) as Hne.
    rewrite removelast_app by done.
    rewrite process_lines_app.
    destruct (process_lines _process (removelast (split_pair CR NL s1)) c)
      as [[[]|e] c1]; [|by eexists].
    specialize (IH (default [] (last (split_pair CR NL s1))) c1
                  (split_pair_last CR NL s1)).
    rewrite last_app.
    destruct (last (split_pair CR NL
      (default [] (last (split_pair CR NL s1)) ++ concat (recv_chunks recvs))))
      as [y|] eqn:Elast.
    + done.
    + apply last_None in Elast. done.
Qed.

End RecvLoopFacts.

(** X25. However [recv] cuts the stream into chunks, and however often it
    is interrupted, the receive loop hands to [_process] the complete
    lines of the whole stream, in order, and keeps what follows the last
    CR LF as [partial]; if [_process] raises at a line, the loop is left
    with that exception after the lines before it. *)
Theorem recv_loop_lines (_process : bytes -> M unit)
    (recvs : list recv_result) (c : client) :
  Forall recv_goes_on recvs ->
  match process_lines _process
          (removelast (split_pair CR NL (concat (recv_chunks recvs)))) c with
  | (Ok _, c') =>
      recv_loop _process recvs [] c
      = (LoopBlocked (default [] (last (split_pair CR NL (concat (recv_chunks recvs))))),
         c')
  | (Raise e, c') =>
      exists p, recv_loop _process recvs [] c = (LoopRaised e p, c')
  end.
Proof.
  intros Hall. by apply (recv_loop_lines_from _process recvs [] c).
Qed.

Lemma recv_loop_lines_witness :
  Forall recv_goes_on
    [RecvData (b "PING :a" ++ [CR]); RecvEINTR;
     RecvData ([NL] ++ b "NOTICE x" ++ CRLF ++ b "PA")]
  /\ recv_loop record_line
       [RecvData (b "PING :a" ++ [CR]); RecvEINTR;
        RecvData ([NL] ++ b "NOTICE x" ++ CRLF ++ b "PA")] []
       (init (b "alice") ∅)
     = (LoopBlocked (b "PA"),
        snd ((record_line (b "PING :a");; record_line (b "NOTICE x"))
               (init (b "alice") ∅))).
Proof.
  assert (Forall recv_goes_on
    [RecvData (b "PING :a" ++ [CR]); RecvEINTR;
     RecvData ([NL] ++ b "NOTICE x" ++ CRLF ++ b "PA")]) as H
    by (repeat constructor; discriminate).
  split; [exact H|].
  exact (recv_loop_lines record_line _ (init (b "alice") ∅) H).
Defined.

(** How [stop] ends for the greenlet that called it. *)
Lemma stop_result (handler : nat -> M unit) (g : nat) (c : client) :
  fst (stop handler g c)
  = if stopped c then Ok tt
    else if bool_decide (g ∈ _group c)
         then Raise (OtherBaseException "GreenletExit")
         else Ok tt.
Proof.
  unfold stop. destruct (stopped c); [done|].
  by destruct (_stop handler (set_stopped true c)).
Qed.

(** X26. [_recv_loop] ends in one of three ways. It calls [stop] and
    returns, when the client was stopped already or the greenlet of the
    loop is not in the group of the client. It calls [stop] on a client
    that was not stopped, from a greenlet of the group, as [start] runs
    it, and is ended there by [GreenletExit]. Or [recv] or [_process]
    raised an exception that is not an [Exception], which it passes on
    without a call of [stop], the client being as the loop left it. *)
Theorem _recv_loop_exit (_process : bytes -> M unit) (handler : nat -> M unit)
    (me : nat) (recvs : list recv_result) (c c' : client) (r : result unit) :
  _recv_loop _process handler me recvs c = (Some r, c') ->
  exists le c1,
    recv_loop _process recvs [] c = (le, c1)
    /\ ((c' = snd (stop handler me c1)
         /\ ((r = Ok tt /\ (stopped c1 = true \/ me ∉ _group c1))
             \/ (r = Raise (OtherBaseException "GreenletExit")
                 /\ stopped c1 = false /\ me ∈ _group c1)))
        \/ (exists e p, le = LoopRaised e p /\ is_Exception e = false
                        /\ r = Raise e /\ c' = c1)).
Proof.
  assert (forall c1,
    (fst (stop handler me c1) = Ok tt /\ (stopped c1 = true \/ me ∉ _group c1))
    \/ (fst (stop handler me c1) = Raise (OtherBaseException "GreenletExit")
        /\ stopped c1 = false /\ me ∈ _group c1)) as Hstop.
  { intros c1. rewrite stop_result. destruct (stopped c1); [left; by split; [|left]|].
    case_bool_decide; [by right|left]. by split; [|right]. }
  unfold _recv_loop.
  destruct (recv_loop _process recvs [] c) as [[p|p|e p] c1]; [done| |].
  - intros [= <- <-]. eexists _, c1. split; [done|]. left. split; [done|]. apply Hstop.
  - destruct (is_Exception e) eqn:He.
    + intros [= <- <-]. eexists _, c1. split; [done|]. left. split; [done|]. apply Hstop.
    + intros [= <- <-]. eexists _, c1. split; [done|]. right. by exists e, p.
Qed.

Lemma _recv_loop_exit_witness :
  _recv_loop record_line all_return 8
    [RecvData (b "PING :a" ++ CRLF); RecvData []]
    (spawned [7; 8] (init (b "alice") ∅))
  = (Some (Raise (OtherBaseException "GreenletExit")),
     snd (stop all_return 8
            (snd (record_line (b "PING :a") (spawned [7; 8] (init (b "alice") ∅))))))
  /\ stopped (snd (record_line (b "PING :a") (spawned [7; 8] (init (b "alice") ∅))))
     = false
  /\ 8 ∈ _group (snd (record_line (b "PING :a") (spawned [7; 8] (init (b "alice") ∅)))).
Proof.
  split; [reflexivity|].
  destruct (_recv_loop_exit record_line all_return 8
              [RecvData (b "PING :a" ++ CRLF); RecvData []]
              (spawned [7; 8] (init (b "alice") ∅)) _ _ eq_refl)
    as (le & c1 & Hloop & [[_ [[H _]|(_ & Hs & Hin)]]|(e & p & Hle & _)]).
  - discriminate H.
  - injection Hloop as _ <-. split; [exact Hs|exact Hin].
  - vm_compute in Hloop. injection Hloop as <- _. discriminate Hle.
Defined.

(** ** Decoding invents no byte *)

Lemma is_valid_param_elem (s : bytes) :
  is_valid_param s = true <-> forall x, x ∈ INVALID_CHARS -> x ∉ s.
Proof.
  unfold is_valid_param, INVALID_CHARS. cbn [existsb].
  rewrite negb_true_iff, !orb_false_iff, !contains_false. split.
  - intros (H1 & H2 & H3 & _) x Hx.
    repeat apply elem_of_cons in Hx as [->|Hx]; try done.
    by apply elem_of_nil in Hx.
  - intros H. repeat split; try done; apply H;
      repeat (apply list_elem_of_here || apply list_elem_of_further).
Qed.

Lemma irc_split_bytes (data p cmd : bytes) (ps : list bytes) (x : ascii) :
  irc_split data = Ok (p, cmd, ps) ->
  (x ∈ p \/ x ∈ cmd \/ exists q, q ∈ ps /\ x ∈ q) -> x ∈ data.
Proof.
  intros (buf & rest & Hp & -> & _ & Hps)%irc_split_inv Hx.
  assert (forall y, y ∈ p \/ y ∈ cmd ++ DELIM :: rest -> y ∈ data) as Hdata.
  { intros y Hy. destruct Hp as [[-> <-]|(_ & Hdrop & _)].
    - destruct Hy as [Hy|Hy]; [by apply elem_of_nil in Hy|done].
    - assert (y ∈ drop 1 data) as Hd.
      { rewrite Hdrop. apply elem_of_app. destruct Hy as [Hy|Hy]; [by left|].
        right. by apply list_elem_of_further. }
      destruct data; [done|]. by apply list_elem_of_further. }
  apply Hdata. destruct Hx as [Hx|[Hx|(q & Hq & Hx)]]; [by left| |].
  - right. apply elem_of_app. by left.
  - right. apply elem_of_app. right. apply list_elem_of_further.
    destruct Hps as [->|(middle & t & -> & ->)].
    + by eapply split_pieces_bytes.
    + apply elem_of_app in Hq as [Hq|Hq].
      * apply elem_of_app. left. by eapply split_pieces_bytes.
      * apply list_elem_of_singleton in Hq as ->.
        apply elem_of_app. right. by do 2 apply list_elem_of_further.
Qed.

(** X27. [irc_split] invents no byte: a line that holds no CR, LF or NUL,
    as [is_valid_param] tests it, decodes to a prefix, a command and
    parameters that all pass [is_valid_param]. *)
Theorem irc_split_params_valid (data p cmd : bytes) (ps : list bytes) :
  irc_split data = Ok (p, cmd, ps) ->
  is_valid_param data = true ->
  is_valid_param p = true /\ is_valid_param cmd = true
  /\ Forall (fun q => is_valid_param q = true) ps.
Proof.
  intros Hsplit Hdata.
  pose proof (proj1 (is_valid_param_elem data) Hdata) as Hd.
  split; [|split].
  - apply is_valid_param_elem. intros x Hx Hin. apply (Hd x Hx).
    eapply irc_split_bytes; [done|]. by left.
  - apply is_valid_param_elem. intros x Hx Hin. apply (Hd x Hx).
    eapply irc_split_bytes; [done|]. right. by left.
  - apply Forall_forall. intros q Hq.
    apply is_valid_param_elem. intros x Hx Hin. apply (Hd x Hx).
    eapply irc_split_bytes; [done|]. right. right. by exists q.
Qed.

Lemma irc_split_params_valid_witness :
  irc_split (b ":srv NOTICE bob :hi there")
  = Ok (b "srv", b "NOTICE", [b "bob"; b "hi there"])
  /\ is_valid_param (b ":srv NOTICE bob :hi there") = true
  /\ is_valid_param (b "srv") = true /\ is_valid_param (b "NOTICE") = true
  /\ Forall (fun q => is_valid_param q = true) [b "bob"; b "hi there"].
Proof.
  split; [reflexivity|]. split; [reflexivity|].
  exact (irc_split_params_valid (b ":srv NOTICE bob :hi there")
           (b "srv") (b "NOTICE") [b "bob"; b "hi there"] eq_refl eq_refl).
Defined.

Lemma decode_single_trailing_keeps_marker_witness :
  command_ok (b "PONG") /\ (DELIM ∉ b "irc.example.net")
  /\ decode (b "PONG" ++ [DELIM; ":"] ++ b "irc.example.net")
     = Ok (mkMessage (Some []) (b "PONG") (ParamsList [":" :: b "irc.example.net"])).
Proof.
  assert (command_ok (b "PONG")) as H1 by (split; [compute_done|reflexivity]).
  assert (DELIM ∉ b "irc.example.net") as H2 by compute_done.
  split; [exact H1|]. split; [exact H2|].
  exact (decode_single_trailing_keeps_marker (b "PONG") (b "irc.example.net") H1 H2).
Defined.

(** X28. A string that holds, past its first byte, a byte a layer escapes
    never comes back from that layer's dequoting of its quoting: the
    result is longer than the string, because each escaped byte comes
    back with its escape byte in front. *)
Theorem dequote_quote_longer (s : bytes) (p : nat) (c : ascii) :
  0 < p -> s !! p = Some c ->
  (c ∈ [NUL; NL; CR; M_QUOTE] ->
   length s < length (low_level_dequote (low_level_quote s)))
  /\ (c ∈ [X_DELIM; X_QUOTE] ->
      length s < length (ctcp_dequote (ctcp_quote s))).
Proof.
  intros Hp Hc. split; intros Hin.
  - by apply (low_level_dequote_quote_longer s p c).
  - by apply (ctcp_dequote_quote_longer s p c).
Qed.

Lemma dequote_quote_longer_witness :
  0 < 4 /\ (b "PING" ++ [CR]) !! 4 = Some CR
  /\ length (b "PING" ++ [CR])
     < length (low_level_dequote (low_level_quote (b "PING" ++ [CR]))).
Proof.
  assert (0 < 4) as H1 by lia.
  assert ((b "PING" ++ [CR]) !! 4 = Some CR) as H2 by reflexivity.
  split; [exact H1|]. split; [exact H2|].
  apply (proj1 (dequote_quote_longer (b "PING" ++ [CR]) 4 CR H1 H2)).
  compute_done.
Defined.
